(** * Ore-bot: the valuation model and the greedy allocator of [main.py]

    A shallow embedding of [compute_expected_return_and_components],
    [compute_ev] and [greedy_optimize], and the properties the
    specification states about them.

    Numbers.  The program computes on [numpy.float64].  Here a float is
    an exact rational ([Q]): every operation is the real one and no
    rounding, overflow, infinity or NaN is modelled.  Equality of amounts
    is therefore [Qeq] ([==]) unless the two sides are built by the very
    same operations.

    Exceptions.  A Python exception is a value [Raise e] of the error
    monad [result]; a call that returns normally is [Ok v]. *)

From Stdlib Require Import Ascii String.
From Stdlib Require Import QArith Qround ZArith List Lia Lqa Bool.
Import ListNotations.

Local Open Scope Q_scope.

(** ** Exceptions *)

Inductive exn : Set :=
| AssertionError      (* a failed [assert] *)
| ZeroDivisionError   (* [x / 0] on Python numbers *)
| ValueError          (* operands could not be broadcast together *)
| IndexError.         (* index out of bounds *)

Inductive result (A : Type) : Type :=
| Ok (a : A)
| Raise (e : exn).

Arguments Ok {A} a.
Arguments Raise {A} e.

Definition bind {A B : Type} (m : result A) (k : A -> result B) : result B :=
  match m with
  | Ok a => k a
  | Raise e => Raise e
  end.

Notation "x <- m ;; k" := (bind m (fun x => k))
  (at level 61, m at next level, right associativity).

(** ** One-dimensional arrays of floats *)

Definition array := list Q.

(** [a.sum()] *)
Definition np_sum (a : array) : Q := fold_left Qplus a 0.

(** [np.zeros(n)] *)
Definition np_zeros (n : nat) : array := repeat 0 n.

(** [a[i]] for [0 <= i]; out of range is an [IndexError]. *)
Definition getitem (a : array) (i : nat) : result Q :=
  match nth_error a i with
  | Some x => Ok x
  | None => Raise IndexError
  end.

(** [a + b] element by element; an array of length one is broadcast
    against the other, any other mismatch of lengths is a [ValueError]. *)
Fixpoint zip_add (a b : array) : array :=
  match a, b with
  | x :: a', y :: b' => (x + y) :: zip_add a' b'
  | _, _ => []
  end.

Definition np_add (a b : array) : result array :=
  if (length a =? length b)%nat then Ok (zip_add a b)
  else match a, b with
       | [x], _ => Ok (map (fun y => x + y) b)
       | _, [y] => Ok (map (fun x => x + y) a)
       | _, _ => Raise ValueError
       end.

(** The array after [a[i] += v] *)
Fixpoint add_at (a : array) (i : nat) (v : Q) : result array :=
  match a, i with
  | [], _ => Raise IndexError
  | x :: a', O => Ok ((x + v) :: a')
  | x :: a', S j => r <- add_at a' j v ;; Ok (x :: r)
  end.

(** [a[idx] += v] where [idx] is an index or [None]; numpy reads [a[None]]
    as the whole array under a new axis, so the addition reaches every
    entry. *)
Definition iadd (a : array) (idx : option nat) (v : Q) : result array :=
  match idx with
  | Some i => add_at a i v
  | None => Ok (map (fun x => x + v) a)
  end.

(** [x > y] on floats *)
Definition Qgt_bool (x y : Q) : bool := negb (Qle_bool x y).

(** ** Core math functions *)

Record components : Set := mkComponents {
  expected_return : Q;
  expected_kept_stakes : Q;
  expected_rewards_before_fee : Q;
  ore_expected_raw : Q
}.

(** The body of [for i in range(n)], run over the indices [idxs], with
    the two accumulators [expected_return] and [ore_expected_raw]. *)
Fixpoint block_loop (s_net total_net : array) (total_net_sum : Q)
    (idxs : list nat) (expected_return ore_expected_raw : Q) : result (Q * Q) :=
  match idxs with
  | [] => Ok (expected_return, ore_expected_raw)
  | i :: rest =>
      denom <- getitem total_net i ;;
      if Qle_bool denom 0 then
        block_loop s_net total_net total_net_sum rest expected_return ore_expected_raw
      else
        let sum_others := total_net_sum - denom in
        s_i <- getitem s_net i ;;
        let reward := (s_i / denom) * sum_others in
        let payout_i := s_i + reward in
        block_loop s_net total_net total_net_sum rest
          (expected_return + payout_i) (ore_expected_raw + s_i / denom)
  end.

Definition compute_expected_return_and_components (T_net s_net : array)
    : result components :=
  let n := length T_net in
  total_net <- np_add T_net s_net ;;
  let total_net_sum := np_sum total_net in
  acc <- block_loop s_net total_net total_net_sum (seq 0 n) 0 0 ;;
  let '(expected_return, ore_expected_raw) := acc in
  if (n =? 0)%nat then Raise ZeroDivisionError
  else
    let expected_return := expected_return / inject_Z (Z.of_nat n) in
    let ore_expected_raw := ore_expected_raw / inject_Z (Z.of_nat n) in
    let expected_kept_stakes := np_sum s_net / inject_Z (Z.of_nat n) in
    let expected_rewards_before_fee := expected_return - expected_kept_stakes in
    Ok {| expected_return := expected_return;
          expected_kept_stakes := expected_kept_stakes;
          expected_rewards_before_fee := expected_rewards_before_fee;
          ore_expected_raw := ore_expected_raw |}.

Record ev_result : Set := mkEv {
  ev_sol_after_fees : Q;
  expected_return_after_protocol_fee : Q;
  cost_gross : Q;
  s_net : array;
  T_net : array;
  comps : components
}.

Definition compute_ev (T_other_gross s_alloc_gross : array) (protocol_fee : Q)
    : result ev_result :=
  let T_net := T_other_gross in
  let s_net := s_alloc_gross in
  comps <- compute_expected_return_and_components T_net s_net ;;
  let expected_kept_stakes := expected_kept_stakes comps in
  let expected_rewards_before_fee := expected_rewards_before_fee comps in
  let expected_rewards_after_fee := expected_rewards_before_fee * (1 - protocol_fee) in
  let expected_return_after_protocol_fee :=
    expected_kept_stakes + expected_rewards_after_fee in
  let cost_gross := np_sum s_alloc_gross in
  let ev_sol_after_fees := expected_return_after_protocol_fee - cost_gross in
  Ok {| ev_sol_after_fees := ev_sol_after_fees;
        expected_return_after_protocol_fee := expected_return_after_protocol_fee;
        cost_gross := cost_gross;
        s_net := s_net;
        T_net := T_net;
        comps := comps |}.

(** ** Greedy discrete optimizer *)

(** Python's [round(x)] of a float to an integer: to the nearest, a tie
    to the even neighbour. *)
Definition py_round (x : Q) : Z :=
  let f := Qfloor x in
  match Qcompare (x - inject_Z f) (1 # 2) with
  | Lt => f
  | Gt => (f + 1)%Z
  | Eq => if Z.even f then f else (f + 1)%Z
  end.

(** [x / y] on Python floats *)
Definition py_div (x y : Q) : result Q :=
  if Qeq_bool y 0 then Raise ZeroDivisionError else Ok (x / y).

(** The variables of the outer loop that change from one iteration to
    the next. *)
Record loop_state : Set := mkState {
  s : array;
  remaining_units : Z
}.

(** How one run of the loop body ends: at a [break], or at the end of the
    body with the state for the next iteration. *)
Inductive iteration : Set :=
| Break (st : loop_state)
| Next (st : loop_state).

Definition tolerance : Q := 1e-12.
Definition initial_best_delta : Q := -1e18.

Section Greedy.

Variable T_other_gross : array.
Variables unit protocol_fee : Q.

(** The change of EV when one unit more goes to block [i]:
    [s_test = s.copy(); s_test[i] += unit] and the difference of the
    candidate's score and the base score. *)
Definition marginal_delta (s : array) (base_score : Q) (i : nat) : result Q :=
  s_test <- add_at s i unit ;;
  candidate <- compute_ev T_other_gross s_test protocol_fee ;;
  let candidate_score := ev_sol_after_fees candidate in
  Ok (candidate_score - base_score).

(** [for i in range(n)] over the indices [idxs], carrying [best_idx]
    and [best_delta]. *)
Fixpoint scan_blocks (s : array) (base_score : Q) (idxs : list nat)
    (best_idx : option nat) (best_delta : Q) : result (option nat * Q) :=
  match idxs with
  | [] => Ok (best_idx, best_delta)
  | i :: rest =>
      delta <- marginal_delta s base_score i ;;
      if Qgt_bool delta best_delta
      then scan_blocks s base_score rest (Some i) delta
      else scan_blocks s base_score rest best_idx best_delta
  end.

(** The first half of the loop body: the base EV, then the scan of all
    blocks from [best_idx = None] and [best_delta = -1e18]. *)
Definition best_block (n : nat) (s : array) : result (option nat * Q) :=
  base <- compute_ev T_other_gross s protocol_fee ;;
  let base_score := ev_sol_after_fees base in
  scan_blocks s base_score (seq 0 n) None initial_best_delta.

(** The body of [for step in range(max_iters)]. *)
Definition loop_body (n : nat) (st : loop_state) : result iteration :=
  if (remaining_units st <=? 0)%Z then Ok (Break st)
  else
    best <- best_block n (s st) ;;
    let '(best_idx, best_delta) := best in
    if Qle_bool best_delta tolerance then Ok (Break st)
    else
      s' <- iadd (s st) best_idx unit ;;
      Ok (Next {| s := s'; remaining_units := remaining_units st - 1 |}).

(** [iters] iterations of the loop, then [return s]. *)
Fixpoint run_loop (n : nat) (iters : nat) (st : loop_state) : result array :=
  match iters with
  | O => Ok (s st)
  | S iters' =>
      it <- loop_body n st ;;
      match it with
      | Break st' => Ok (s st')
      | Next st' => run_loop n iters' st'
      end
  end.

End Greedy.

Definition greedy_optimize (T_other_gross : array) (budget unit protocol_fee : Q)
    (max_iters : option Z) : result array :=
  let n := length T_other_gross in
  if negb (n =? 25)%nat then Raise AssertionError
  else
    let s := np_zeros n in
    q <- py_div budget unit ;;
    let remaining_units := py_round q in
    if (remaining_units <=? 0)%Z then Ok s
    else
      let max_iters :=
        match max_iters with
        | None => remaining_units
        | Some m => m
        end in
      run_loop T_other_gross unit protocol_fee n (Z.to_nat max_iters)
        {| s := s; remaining_units := remaining_units |}.

(** ** The valuation model in the words of the specification

    [evaluate(opponentStakes, allocation, feeRate)] as section 4.1 of the
    specification defines it, block by block; the theorems below compare
    [compute_ev] with it. *)

Module Spec.

(** The sum of [f i] over the indices [idxs]. *)
Fixpoint sum_over (f : nat -> Q) (idxs : list nat) : Q :=
  match idxs with
  | [] => 0
  | i :: rest => f i + sum_over f rest
  end.

Definition entry (a : array) (i : nat) : Q := nth i a 0.

Section Evaluate.

Variables opponentStakes allocation : array.
Variable feeRate : Q.

Let n : nat := length opponentStakes.
Let blocks : list nat := seq 0 n.
Let count : Q := inject_Z (Z.of_nat n).

(** [total_i = opponentStakes[i] + allocation[i]] *)
Definition total (i : nat) : Q := entry opponentStakes i + entry allocation i.

(** [payout_i], zero for a block nobody has staked in *)
Definition payout (i : nat) : Q :=
  if Qle_bool (total i) 0 then 0
  else entry allocation i
       + (entry allocation i / total i) * (sum_over total blocks - total i).

Definition share (i : nat) : Q :=
  if Qle_bool (total i) 0 then 0 else entry allocation i / total i.

Definition expectedReturn : Q := sum_over payout blocks / count.
Definition expectedKeptStake : Q := sum_over (entry allocation) blocks / count.
Definition expectedRewardBeforeFee : Q := expectedReturn - expectedKeptStake.
Definition expectedRewardAfterFee : Q := expectedRewardBeforeFee * (1 - feeRate).
Definition expectedReturnAfterFee : Q := expectedKeptStake + expectedRewardAfterFee.
Definition cost : Q := sum_over (entry allocation) blocks.
Definition ev : Q := expectedReturnAfterFee - cost.
Definition rawOreShare : Q := sum_over share blocks / count.

End Evaluate.

End Spec.

(** ** Definitions used by the statements and the proofs *)

(** The array [a] with [v] added to entry [i]. *)
Fixpoint bump (a : array) (i : nat) (v : Q) : array :=
  match a, i with
  | [], _ => []
  | x :: a', O => (x + v) :: a'
  | x :: a', S j => x :: bump a' j v
  end.

(** All entries are non-negative. *)
Definition nonneg (a : array) : Prop := Forall (fun x => 0 <= x) a.

(** The marginal delta of block [i], as a number. *)
Definition delta_of (T_other_gross : array) (unit protocol_fee : Q)
    (s : array) (base_score : Q) (i : nat) : Q :=
  match marginal_delta T_other_gross unit protocol_fee s base_score i with
  | Ok delta => delta
  | Raise _ => 0
  end.

(** The number of times [for step in range(max_iters)] can run. *)
Definition iterations (max_iters : option Z) (remaining_units : Z) : nat :=
  Z.to_nat match max_iters with
           | None => remaining_units
           | Some m => m
           end.

(** A grid of 25 blocks where one opponent holds 100 in block 1. *)
Definition sample_grid : array := 0 :: 100 :: repeat 0 23.

(** A grid of three blocks, the first two empty. *)
Definition grid_two_equal : array := [0; 0; 100].

(** ** Equal values

    A float is modelled by a fraction, and one number has many fractions
    ([1 # 2] and [2 # 4]).  Two arrays hold the same values when their
    entries are pairwise [==]; two calls end the same way when both raise
    the same exception or both return, with related values. *)

Definition same_values : array -> array -> Prop := Forall2 Qeq.

Inductive same_result {A : Type} (R : A -> A -> Prop) : result A -> result A -> Prop :=
| same_ok (a b : A) : R a b -> same_result R (Ok a) (Ok b)
| same_raise (e : exn) : same_result R (Raise e) (Raise e).

Create HintDb two_runs.
#[local] Hint Constructors same_result Forall2 : two_runs.

Definition same_pair (p q : Q * Q) : Prop := fst p == fst q /\ snd p == snd q.

Definition same_components (c c' : components) : Prop :=
  expected_return c == expected_return c'
  /\ expected_kept_stakes c == expected_kept_stakes c'
  /\ expected_rewards_before_fee c == expected_rewards_before_fee c'
  /\ ore_expected_raw c == ore_expected_raw c'.

Definition same_ev (r r' : ev_result) : Prop :=
  ev_sol_after_fees r == ev_sol_after_fees r'
  /\ expected_return_after_protocol_fee r == expected_return_after_protocol_fee r'
  /\ cost_gross r == cost_gross r'
  /\ same_values (s_net r) (s_net r')
  /\ same_values (T_net r) (T_net r')
  /\ same_components (comps r) (comps r').

Definition same_best (b b' : option nat * Q) : Prop :=
  fst b = fst b' /\ snd b == snd b'.

Definition same_state (st st' : loop_state) : Prop :=
  same_values (s st) (s st') /\ remaining_units st = remaining_units st'.

Inductive same_iteration : iteration -> iteration -> Prop :=
| same_break (st st' : loop_state) :
    same_state st st' -> same_iteration (Break st) (Break st')
| same_next (st st' : loop_state) :
    same_state st st' -> same_iteration (Next st) (Next st').

(** The array [a] with every entry multiplied by [c]. *)
Definition scaled (c : Q) (a : array) : array := map (Qmult c) a.




(** ** Reading the grid

    A Python [str] is a [string] whose characters are code points below
    256.  [float(x)] is left open: the functions below take it as the
    parameter [py_float], so what is proved of them holds whatever
    numerals [float] reads. *)

(** [c.isspace()] *)
Definition is_space (c : ascii) : bool :=
  let k := nat_of_ascii c in
  ((9 <=? k) && (k <=? 13) || (28 <=? k) && (k <=? 32)
   || (k =? 133) || (k =? 160))%nat.

Fixpoint lstrip (x : string) : string :=
  match x with
  | EmptyString => EmptyString
  | String c rest => if is_space c then lstrip rest else x
  end.

Fixpoint rstrip (x : string) : string :=
  match x with
  | EmptyString => EmptyString
  | String c rest =>
      match rstrip rest with
      | EmptyString => if is_space c then EmptyString else String c EmptyString
      | kept => String c kept
      end
  end.

(** [x.strip()] *)
Definition strip (x : string) : string := rstrip (lstrip x).

(** [x.split(sep)] for a separator of one character *)
Fixpoint split (sep : ascii) (x : string) : list string :=
  match x with
  | EmptyString => [EmptyString]
  | String c rest =>
      if Ascii.eqb c sep then EmptyString :: split sep rest
      else match split sep rest with
           | field :: fields => String c field :: fields
           | [] => [String c EmptyString]
           end
  end.

(** [p.strip() != ''] *)
Definition not_blank (p : string) : bool :=
  match strip p with
  | EmptyString => false
  | String _ _ => true
  end.

Section Reading.

Variable py_float : string -> result Q.

(** [[float(x) for x in parts]] *)
Fixpoint floats (parts : list string) : result array :=
  match parts with
  | [] => Ok []
  | x :: rest =>
      v <- py_float x ;;
      vs <- floats rest ;;
      Ok (v :: vs)
  end.

Definition parse_grid_string (x : string) : result array :=
  let parts := map strip (filter not_blank (split "," x)) in
  if negb (length parts =? 25)%nat then Raise ValueError
  else floats parts.

(** [for cell in row], appending to [vals] *)
Fixpoint read_row (row : list string) (vals : list Q) : result (list Q) :=
  match row with
  | [] => Ok vals
  | cell :: rest =>
      if not_blank cell then
        v <- py_float cell ;;
        read_row rest (vals ++ [v])
      else read_row rest vals
  end.

(** [for row in r], appending to [vals] *)
Fixpoint read_rows (rows : list (list string)) (vals : list Q) : result (list Q) :=
  match rows with
  | [] => Ok vals
  | row :: rest =>
      vals' <- read_row row vals ;;
      read_rows rest vals'
  end.

(** [read_grid_csv(path)], given the rows that [csv.reader] yields for
    the file at [path]. *)
Definition read_grid_csv (rows : list (list string)) : result array :=
  vals <- read_rows rows [] ;;
  if negb (length vals =? 25)%nat then Raise ValueError
  else Ok vals.

End Reading.

(** Every character of [w] is white space. *)
Fixpoint all_space (w : string) : bool :=
  match w with
  | EmptyString => true
  | String c rest => is_space c && all_space rest
  end.

(** A reader of numerals for the examples: decimal digits, white space
    skipped, anything else a [ValueError]. *)
Fixpoint digits (x : string) (acc : Z) : option Z :=
  match x with
  | EmptyString => Some acc
  | String c rest =>
      let k := nat_of_ascii c in
      if is_space c then digits rest acc
      else if ((48 <=? k) && (k <=? 57))%nat
           then digits rest (10 * acc + Z.of_nat (k - 48))
           else None
  end.

Definition example_float (x : string) : result Q :=
  match digits x 0 with
  | Some v => Ok (inject_Z v)
  | None => Raise ValueError
  end.

(** The fields of a comma list that are not blank. *)
Definition fields_of (x : string) : list string := filter not_blank (split "," x).

(** ** The command line

    [main] without its printing: what it computes from the parsed
    arguments and how it ends. *)







Section Main.

Variable py_float : string -> result Q.



End Main.




(** ** Sums *)

Lemma fold_left_Qplus_acc (l : array) (a : Q) :
  fold_left Qplus l a == a + fold_left Qplus l 0.
Proof.
  revert a; induction l as [|x l IH]; intros a; simpl.
  - lra.
  - rewrite (IH (a + x)), (IH (0 + x)). lra.
Qed.

Lemma np_sum_nil : np_sum [] = 0.
Proof. reflexivity. Qed.

Lemma np_sum_cons (x : Q) (l : array) : np_sum (x :: l) == x + np_sum l.
Proof.
  unfold np_sum; simpl. rewrite fold_left_Qplus_acc. lra.
Qed.

Lemma np_sum_zeros (n : nat) : np_sum (np_zeros n) == 0.
Proof.
  induction n as [|n IH]; [reflexivity|].
  unfold np_zeros in *; simpl repeat. rewrite np_sum_cons, IH. lra.
Qed.

Lemma np_sum_nonneg (l : array) : Forall (fun x => 0 <= x) l -> 0 <= np_sum l.
Proof.
  induction 1 as [|x l Hx _ IH]; [discriminate|].
  rewrite np_sum_cons. lra.
Qed.

Lemma sum_over_ext (f g : nat -> Q) (idxs : list nat) :
  (forall i, In i idxs -> f i == g i) ->
  Spec.sum_over f idxs == Spec.sum_over g idxs.
Proof.
  induction idxs as [|i idxs IH]; intros H; simpl; [reflexivity|].
  rewrite (H i), IH; [reflexivity| |]; intuition auto with datatypes.
Qed.

Lemma sum_over_le (f g : nat -> Q) (idxs : list nat) :
  (forall i, In i idxs -> f i <= g i) ->
  Spec.sum_over f idxs <= Spec.sum_over g idxs.
Proof.
  induction idxs as [|i idxs IH]; intros H; simpl; [lra|].
  assert (f i <= g i) by (apply H; now left).
  assert (Spec.sum_over f idxs <= Spec.sum_over g idxs)
    by (apply IH; intros; apply H; now right).
  lra.
Qed.

Lemma sum_over_const (c : Q) (idxs : list nat) :
  Spec.sum_over (fun _ => c) idxs == c * inject_Z (Z.of_nat (length idxs)).
Proof.
  induction idxs as [|i idxs IH]; [simpl; unfold inject_Z; lra|].
  cbn [Spec.sum_over length]. rewrite IH, Nat2Z.inj_succ, <- Z.add_1_r, inject_Z_plus.
  change (inject_Z 1) with 1. lra.
Qed.

Lemma sum_over_shift (f : nat -> Q) (idxs : list nat) :
  Spec.sum_over f (map S idxs) = Spec.sum_over (fun i => f (S i)) idxs.
Proof.
  induction idxs as [|i idxs IH]; simpl; [reflexivity|now rewrite IH].
Qed.

Lemma sum_over_member_le (f : nat -> Q) (idxs : list nat) (i : nat) :
  (forall j, In j idxs -> 0 <= f j) -> In i idxs -> f i <= Spec.sum_over f idxs.
Proof.
  induction idxs as [|j idxs IH]; intros Hpos Hin; [destruct Hin|].
  assert (0 <= f j) by (apply Hpos; now left).
  assert (0 <= Spec.sum_over f idxs).
  { clear -Hpos. induction idxs as [|k idxs IH]; simpl; [lra|].
    assert (0 <= f k) by (apply Hpos; right; now left).
    assert (0 <= Spec.sum_over f idxs)
      by (apply IH; intros m [->|Hm]; apply Hpos; [now left|right; now right]).
    lra. }
  simpl. destruct Hin as [->|Hin].
  - lra.
  - assert (f i <= Spec.sum_over f idxs)
      by (apply IH; [intros; apply Hpos; now right|assumption]).
    lra.
Qed.

(** [a.sum()] is the sum of the entries [a[0]], ..., [a[n-1]]. *)
Lemma np_sum_entries (a : array) :
  np_sum a == Spec.sum_over (Spec.entry a) (seq 0 (length a)).
Proof.
  induction a as [|x a IH]; [reflexivity|].
  rewrite np_sum_cons, IH. cbn [length seq Spec.sum_over].
  rewrite <- seq_shift, sum_over_shift. reflexivity.
Qed.

(** ** Arrays *)

Lemma getitem_entry (a : array) (i : nat) :
  (i < length a)%nat -> getitem a i = Ok (Spec.entry a i).
Proof.
  intros H. unfold getitem, Spec.entry.
  destruct (nth_error a i) as [x|] eqn:E.
  - now rewrite (nth_error_nth a i 0 E).
  - apply nth_error_None in E. lia.
Qed.

Lemma zip_add_length (a b : array) :
  length a = length b -> length (zip_add a b) = length a.
Proof.
  revert b; induction a as [|x a IH]; intros [|y b] H; simpl in *; try congruence.
  now rewrite IH by congruence.
Qed.

Lemma zip_add_entry (a b : array) (i : nat) :
  length a = length b -> (i < length a)%nat ->
  Spec.entry (zip_add a b) i = Spec.entry a i + Spec.entry b i.
Proof.
  unfold Spec.entry.
  revert b i; induction a as [|x a IH]; intros [|y b] i H Hi; simpl in *;
    try lia; try congruence.
  destruct i as [|i]; [reflexivity|].
  apply IH; [congruence|lia].
Qed.

Lemma np_add_same_length (a b : array) :
  length a = length b -> np_add a b = Ok (zip_add a b).
Proof.
  intros H. unfold np_add. now rewrite H, Nat.eqb_refl.
Qed.

Lemma add_at_bump (a : array) (i : nat) (v : Q) :
  (i < length a)%nat -> add_at a i v = Ok (bump a i v).
Proof.
  revert i; induction a as [|x a IH]; intros i H; simpl in *; [lia|].
  destruct i as [|i]; [reflexivity|].
  now rewrite IH by lia.
Qed.

Lemma add_at_out_of_range (a : array) (i : nat) (v : Q) :
  (length a <= i)%nat -> add_at a i v = Raise IndexError.
Proof.
  revert i; induction a as [|x a IH]; intros i H; simpl in *; [reflexivity|].
  destruct i as [|i]; [lia|].
  now rewrite IH by lia.
Qed.

Lemma bump_length (a : array) (i : nat) (v : Q) : length (bump a i v) = length a.
Proof.
  revert i; induction a as [|x a IH]; intros [|i]; simpl; auto.
Qed.

Lemma bump_entry_same (a : array) (i : nat) (v : Q) :
  (i < length a)%nat -> Spec.entry (bump a i v) i = Spec.entry a i + v.
Proof.
  unfold Spec.entry.
  revert i; induction a as [|x a IH]; intros [|i] H; simpl in *; try lia; auto.
  apply IH; lia.
Qed.

Lemma bump_entry_other (a : array) (i j : nat) (v : Q) :
  i <> j -> Spec.entry (bump a i v) j = Spec.entry a j.
Proof.
  unfold Spec.entry.
  revert i j; induction a as [|x a IH]; intros [|i] [|j] H; simpl; try congruence.
  apply IH; congruence.
Qed.

Lemma bump_sum (a : array) (i : nat) (v : Q) :
  (i < length a)%nat -> np_sum (bump a i v) == np_sum a + v.
Proof.
  revert i; induction a as [|x a IH]; intros [|i] H; simpl in *; try lia.
  - rewrite !np_sum_cons. lra.
  - rewrite !np_sum_cons, IH by lia. lra.
Qed.

Lemma bump_nonneg (a : array) (i : nat) (v : Q) :
  0 <= v -> Forall (fun x => 0 <= x) a -> Forall (fun x => 0 <= x) (bump a i v).
Proof.
  intros Hv H; revert i; induction H as [|x a Hx Ha IH]; intros [|i]; simpl;
    constructor; auto; lra.
Qed.

Lemma zeros_length (n : nat) : length (np_zeros n) = n.
Proof. apply repeat_length. Qed.

Lemma zeros_nonneg (n : nat) : Forall (fun x => 0 <= x) (np_zeros n).
Proof.
  induction n as [|n IH]; [constructor|].
  unfold np_zeros in *; simpl; constructor; [discriminate|assumption].
Qed.

Lemma zeros_entry (n i : nat) : Spec.entry (np_zeros n) i = 0.
Proof.
  unfold Spec.entry, np_zeros. revert i; induction n as [|n IH]; intros [|i]; simpl; auto.
Qed.

Lemma entry_nonneg (a : array) (i : nat) :
  Forall (fun x => 0 <= x) a -> 0 <= Spec.entry a i.
Proof.
  unfold Spec.entry.
  intros H; revert i; induction H as [|x a Hx _ IH]; intros [|i]; simpl;
    try discriminate; auto.
Qed.

Lemma count_pos (n : nat) : n <> 0%nat -> 0 < inject_Z (Z.of_nat n).
Proof.
  intros H. change 0 with (inject_Z 0). rewrite <- Zlt_Qlt. lia.
Qed.

(** ** The valuation model computes what the specification defines *)

Section Valuation.

Variables T A : array.
Hypothesis same_length : length T = length A.

Let n := length T.

Lemma total_sum_entries :
  np_sum (zip_add T A) == Spec.sum_over (Spec.total T A) (seq 0 n).
Proof.
  rewrite np_sum_entries, zip_add_length by assumption.
  apply sum_over_ext. intros i Hi. apply in_seq in Hi.
  rewrite zip_add_entry by (assumption || lia). reflexivity.
Qed.

Lemma block_loop_ok (idxs : list nat) (er ore : Q) :
  (forall i, In i idxs -> (i < n)%nat) ->
  exists er' ore',
    block_loop A (zip_add T A) (np_sum (zip_add T A)) idxs er ore = Ok (er', ore')
    /\ er' == er + Spec.sum_over (Spec.payout T A) idxs
    /\ ore' == ore + Spec.sum_over (Spec.share T A) idxs.
Proof.
  revert er ore; induction idxs as [|i idxs IH]; intros er ore Hin.
  - exists er, ore. simpl. repeat split; lra.
  - assert (Hi : (i < n)%nat) by (apply Hin; now left).
    assert (Hrest : forall j, In j idxs -> (j < n)%nat)
      by (intros; apply Hin; now right).
    cbn [block_loop Spec.sum_over].
    rewrite getitem_entry by (rewrite zip_add_length; assumption).
    rewrite zip_add_entry by assumption. cbn [bind].
    unfold Spec.payout at 1, Spec.share at 1. fold n.
    change (Spec.entry T i + Spec.entry A i) with (Spec.total T A i).
    destruct (Qle_bool (Spec.total T A i) 0).
    + destruct (IH er ore Hrest) as (er' & ore' & E & H1 & H2).
      exists er', ore'. repeat split; [assumption|lra|lra].
    + rewrite getitem_entry by (rewrite <- same_length; assumption). cbn [bind].
      match goal with |- context [block_loop _ _ _ _ ?e ?o] =>
        destruct (IH e o Hrest) as (er' & ore' & E & H1 & H2) end.
      exists er', ore'. split; [exact E|].
      rewrite H1, H2, total_sum_entries. split; lra.
Qed.

Hypothesis nonempty : n <> 0%nat.

(** The components, field by field. *)
Lemma components_ok :
  exists c,
    compute_expected_return_and_components T A = Ok c
    /\ expected_return c == Spec.expectedReturn T A
    /\ expected_kept_stakes c == Spec.expectedKeptStake T A
    /\ expected_rewards_before_fee c == Spec.expectedRewardBeforeFee T A
    /\ ore_expected_raw c == Spec.rawOreShare T A.
Proof.
  unfold compute_expected_return_and_components.
  rewrite np_add_same_length by assumption. cbn [bind].
  destruct (block_loop_ok (seq 0 n) 0 0) as (er & ore & E & H1 & H2).
  { intros i Hi. apply in_seq in Hi. lia. }
  fold n. rewrite E. cbn [bind].
  destruct (Nat.eqb_spec n 0) as [E0|_]; [contradiction|].
  eexists; split; [reflexivity|]. cbn.
  unfold Spec.expectedRewardBeforeFee, Spec.expectedReturn,
    Spec.expectedKeptStake, Spec.rawOreShare. fold n.
  assert (Hs : np_sum A == Spec.sum_over (Spec.entry A) (seq 0 n))
    by (rewrite np_sum_entries, <- same_length; reflexivity).
  rewrite H1, H2, Hs, !Qplus_0_l.
  repeat split; reflexivity.
Qed.

Variable fee : Q.

Lemma compute_ev_ok :
  exists r,
    compute_ev T A fee = Ok r
    /\ ev_sol_after_fees r == Spec.ev T A fee
    /\ expected_return_after_protocol_fee r == Spec.expectedReturnAfterFee T A fee
    /\ cost_gross r == Spec.cost T A
    /\ ore_expected_raw (comps r) == Spec.rawOreShare T A
    /\ expected_return (comps r) == Spec.expectedReturn T A
    /\ expected_kept_stakes (comps r) == Spec.expectedKeptStake T A
    /\ expected_rewards_before_fee (comps r) == Spec.expectedRewardBeforeFee T A.
Proof.
  destruct components_ok as (c & E & H1 & H2 & H3 & H4).
  unfold compute_ev. rewrite E. cbn [bind].
  eexists; split; [reflexivity|]. cbn.
  assert (Hs : np_sum A == Spec.sum_over (Spec.entry A) (seq 0 n))
    by (rewrite np_sum_entries, <- same_length; reflexivity).
  unfold Spec.ev, Spec.expectedReturnAfterFee, Spec.expectedRewardAfterFee, Spec.cost.
  fold n. rewrite H2, H3, Hs.
  repeat split; try reflexivity; assumption.
Qed.

End Valuation.

(** ** Non-negative stakes *)

Section NonNegative.

Variables T A : array.
Hypothesis T_nonneg : nonneg T.
Hypothesis A_nonneg : nonneg A.

Let n := length T.

Lemma total_nonneg (i : nat) : 0 <= Spec.total T A i.
Proof.
  unfold Spec.total.
  pose proof (entry_nonneg T i T_nonneg). pose proof (entry_nonneg A i A_nonneg). lra.
Qed.

Lemma share_bounds (i : nat) : 0 <= Spec.share T A i <= 1.
Proof.
  unfold Spec.share.
  destruct (Qle_bool (Spec.total T A i) 0) eqn:E; [lra|].
  assert (Hpos : 0 < Spec.total T A i).
  { apply Qnot_le_lt. intros H. apply Qle_bool_iff in H. congruence. }
  pose proof (entry_nonneg T i T_nonneg). pose proof (entry_nonneg A i A_nonneg).
  split.
  - apply Qle_shift_div_l; [assumption|lra].
  - apply Qle_shift_div_r; [assumption|]. unfold Spec.total in *. lra.
Qed.

Lemma payout_covers_stake (i : nat) :
  In i (seq 0 n) -> Spec.entry A i <= Spec.payout T A i.
Proof.
  intros Hi. unfold Spec.payout. fold n.
  pose proof (entry_nonneg T i T_nonneg). pose proof (entry_nonneg A i A_nonneg).
  destruct (Qle_bool (Spec.total T A i) 0) eqn:E.
  - apply Qle_bool_iff in E. unfold Spec.total in E. lra.
  - assert (Hpos : 0 < Spec.total T A i).
    { apply Qnot_le_lt. intros H'. apply Qle_bool_iff in H'. congruence. }
    assert (0 <= Spec.entry A i / Spec.total T A i)
      by (apply Qle_shift_div_l; [assumption|lra]).
    assert (Spec.total T A i <= Spec.sum_over (Spec.total T A) (seq 0 n))
      by (apply sum_over_member_le; [intros; apply total_nonneg|assumption]).
    assert (0 <= Spec.entry A i / Spec.total T A i
                 * (Spec.sum_over (Spec.total T A) (seq 0 n) - Spec.total T A i))
      by (apply Qmult_le_0_compat; lra).
    lra.
Qed.

Hypothesis nonempty : n <> 0%nat.

Lemma reward_nonneg : 0 <= Spec.expectedRewardBeforeFee T A.
Proof.
  unfold Spec.expectedRewardBeforeFee, Spec.expectedReturn, Spec.expectedKeptStake.
  fold n.
  pose proof (count_pos n nonempty) as Hc.
  pose proof (sum_over_le _ _ (seq 0 n) payout_covers_stake) as Hle.
  apply Qinv_lt_0_compat in Hc. unfold Qdiv.
  set (ic := / inject_Z (Z.of_nat n)) in *. nra.
Qed.

Lemma raw_share_bounds : 0 <= Spec.rawOreShare T A <= 1.
Proof.
  unfold Spec.rawOreShare. fold n.
  pose proof (count_pos n nonempty) as Hc.
  assert (H0 : Spec.sum_over (fun _ => 0) (seq 0 n)
               <= Spec.sum_over (Spec.share T A) (seq 0 n))
    by (apply sum_over_le; intros; apply share_bounds).
  assert (H1 : Spec.sum_over (Spec.share T A) (seq 0 n)
               <= Spec.sum_over (fun _ => 1) (seq 0 n))
    by (apply sum_over_le; intros; apply share_bounds).
  rewrite sum_over_const in H0, H1. rewrite length_seq in H0, H1.
  split.
  - apply Qle_shift_div_l; [assumption|lra].
  - apply Qle_shift_div_r; [assumption|lra].
Qed.

Lemma ev_fee_monotone (f1 f2 : Q) :
  f1 <= f2 -> Spec.ev T A f2 <= Spec.ev T A f1.
Proof.
  intros H. pose proof reward_nonneg as Hr.
  unfold Spec.ev, Spec.expectedReturnAfterFee, Spec.expectedRewardAfterFee.
  set (rew := Spec.expectedRewardBeforeFee T A) in *. nra.
Qed.

End NonNegative.

(** ** One iteration of the greedy loop *)

Lemma Qgt_bool_true (x y : Q) : Qgt_bool x y = true <-> y < x.
Proof.
  unfold Qgt_bool. rewrite negb_true_iff. split.
  - intros E. apply Qnot_le_lt. intros H. apply Qle_bool_iff in H. congruence.
  - intros H. destruct (Qle_bool x y) eqn:E; [|reflexivity].
    apply Qle_bool_iff in E. lra.
Qed.

Lemma Qgt_bool_false (x y : Q) : Qgt_bool x y = false <-> x <= y.
Proof.
  unfold Qgt_bool. rewrite negb_false_iff. apply Qle_bool_iff.
Qed.

Lemma Qle_bool_false (x y : Q) : Qle_bool x y = false <-> y < x.
Proof.
  rewrite <- Qgt_bool_true. unfold Qgt_bool. now rewrite negb_true_iff.
Qed.

Lemma initial_below_tolerance : initial_best_delta <= tolerance.
Proof. discriminate. Qed.

Section Iteration.

Variable T : array.
Variables unit fee : Q.
Variable n : nat.
Hypothesis T_length : length T = n.
Hypothesis nonempty : n <> 0%nat.

Lemma marginal_delta_defined (s : array) (base_score : Q) (i : nat) :
  length s = n -> (i < n)%nat ->
  marginal_delta T unit fee s base_score i = Ok (delta_of T unit fee s base_score i).
Proof.
  intros Hs Hi. unfold delta_of, marginal_delta.
  rewrite add_at_bump by lia. cbn [bind].
  destruct (compute_ev_ok T (bump s i unit)) with (fee := fee) as (r & E & _).
  - rewrite bump_length. congruence.
  - congruence.
  - rewrite E. reflexivity.
Qed.

Lemma delta_of_value (s : array) (base_score : Q) (i : nat) :
  length s = n -> (i < n)%nat ->
  delta_of T unit fee s base_score i == Spec.ev T (bump s i unit) fee - base_score.
Proof.
  intros Hs Hi. unfold delta_of, marginal_delta.
  rewrite add_at_bump by lia. cbn [bind].
  destruct (compute_ev_ok T (bump s i unit)) with (fee := fee) as (r & E & Hev & _).
  - rewrite bump_length. congruence.
  - congruence.
  - rewrite E. cbn. now rewrite Hev.
Qed.

(** What the scan of the blocks [k], ..., [k + m - 1] leaves in
    [best_idx] and [best_delta]: either nothing beat the incoming
    [best_delta], or the first block with the largest delta did. *)
Lemma scan_blocks_seq (s : array) (base_score : Q) (m k : nat)
    (best_idx : option nat) (best_delta : Q) :
  length s = n -> (k + m <= n)%nat ->
  let delta := delta_of T unit fee s base_score in
  exists best_idx' best_delta',
    scan_blocks T unit fee s base_score (seq k m) best_idx best_delta
      = Ok (best_idx', best_delta')
    /\ ((best_idx' = best_idx /\ best_delta' = best_delta
         /\ forall j, (k <= j < k + m)%nat -> delta j <= best_delta)
        \/ exists i, best_idx' = Some i /\ (k <= i < k + m)%nat
             /\ best_delta' = delta i /\ best_delta < delta i
             /\ (forall j, (k <= j < i)%nat -> delta j < delta i)
             /\ (forall j, (k <= j < k + m)%nat -> delta j <= delta i)).
Proof.
  intros Hs. revert k best_idx best_delta.
  induction m as [|m IH]; intros k best_idx best_delta Hk delta.
  - exists best_idx, best_delta. split; [reflexivity|].
    left. repeat split. intros j Hj. lia.
  - cbn [seq scan_blocks].
    rewrite marginal_delta_defined by (assumption || lia). cbn [bind].
    fold (delta k).
    destruct (Qgt_bool (delta k) best_delta) eqn:E.
    + apply Qgt_bool_true in E.
      destruct (IH (S k) (Some k) (delta k)) as (bi & bd & Es & Hcase); [lia|].
      exists bi, bd. split; [exact Es|]. right.
      destruct Hcase as [(-> & -> & Hall)|(i & -> & Hi & -> & Hlt & Hpre & Hall)].
      * exists k. repeat split; try lia; try assumption.
        intros j Hj. destruct (Nat.eq_dec j k) as [->|Hne]; [lra|].
        apply Hall. lia.
      * exists i. fold delta in Hlt, Hpre, Hall.
        repeat split; try lia; try lra.
        -- intros j Hj. destruct (Nat.eq_dec j k) as [->|Hne]; [lra|].
           apply Hpre. lia.
        -- intros j Hj. destruct (Nat.eq_dec j k) as [->|Hne]; [lra|].
           apply Hall. lia.
    + apply Qgt_bool_false in E.
      destruct (IH (S k) best_idx best_delta) as (bi & bd & Es & Hcase); [lia|].
      exists bi, bd. split; [exact Es|].
      destruct Hcase as [(-> & -> & Hall)|(i & -> & Hi & -> & Hlt & Hpre & Hall)].
      * left. repeat split.
        intros j Hj. destruct (Nat.eq_dec j k) as [->|Hne]; [lra|].
        apply Hall. lia.
      * right. exists i. fold delta in Hlt, Hpre, Hall.
        repeat split; try lia; try lra.
        -- intros j Hj. destruct (Nat.eq_dec j k) as [->|Hne]; [lra|].
           apply Hpre. lia.
        -- intros j Hj. destruct (Nat.eq_dec j k) as [->|Hne]; [lra|].
           apply Hall. lia.
Qed.

End Iteration.

Section Loop.

Variable T : array.
Variables unit fee : Q.
Variable n : nat.
Hypothesis T_length : length T = n.
Hypothesis nonempty : n <> 0%nat.

(** The outcome of [best_block]: [None] with the initial [-1e18] when no
    delta exceeds it, otherwise the lowest index of the largest delta. *)
Lemma best_block_spec (s : array) :
  length s = n ->
  exists base best_idx best_delta,
    compute_ev T s fee = Ok base
    /\ best_block T unit fee n s = Ok (best_idx, best_delta)
    /\ let delta := delta_of T unit fee s (ev_sol_after_fees base) in
       (best_idx = None /\ best_delta = initial_best_delta
        /\ forall j, (j < n)%nat -> delta j <= initial_best_delta)
       \/ exists i, best_idx = Some i /\ (i < n)%nat
            /\ best_delta = delta i /\ initial_best_delta < delta i
            /\ (forall j, (j < i)%nat -> delta j < delta i)
            /\ (forall j, (j < n)%nat -> delta j <= delta i).
Proof.
  intros Hs.
  destruct (compute_ev_ok T s) with (fee := fee) as (base & E & _);
    [congruence|congruence|].
  destruct (scan_blocks_seq T unit fee n T_length nonempty s
              (ev_sol_after_fees base) n 0 None initial_best_delta Hs)
    as (bi & bd & Es & Hcase); [lia|].
  exists base, bi, bd. unfold best_block. rewrite E. cbn [bind].
  repeat split; try assumption.
  destruct Hcase as [(-> & -> & Hall)|(i & -> & Hi & -> & Hlt & Hpre & Hall)].
  - left. repeat split. intros j Hj. apply Hall. lia.
  - right. exists i. repeat split; try lia; try assumption.
    + intros j Hj. apply Hpre. lia.
    + intros j Hj. apply Hall. lia.
Qed.

(** The loop body past its first test. *)
Lemma loop_body_spec (st : loop_state) :
  length (s st) = n -> (0 < remaining_units st)%Z ->
  exists base best_idx best_delta,
    compute_ev T (s st) fee = Ok base
    /\ best_block T unit fee n (s st) = Ok (best_idx, best_delta)
    /\ let delta := delta_of T unit fee (s st) (ev_sol_after_fees base) in
       (best_delta <= tolerance
        /\ (forall j, (j < n)%nat -> delta j <= best_delta)
        /\ loop_body T unit fee n st = Ok (Break st))
       \/ (tolerance < best_delta
           /\ exists i, best_idx = Some i /\ (i < n)%nat
                /\ best_delta = delta i
                /\ (forall j, (j < i)%nat -> delta j < delta i)
                /\ (forall j, (j < n)%nat -> delta j <= delta i)
                /\ loop_body T unit fee n st
                   = Ok (Next {| s := bump (s st) i unit;
                                 remaining_units := remaining_units st - 1 |})).
Proof.
  intros Hs Hrem.
  destruct (best_block_spec (s st) Hs) as (base & bi & bd & E & Eb & Hcase).
  exists base, bi, bd. split; [exact E|]. split; [exact Eb|].
  unfold loop_body. rewrite Eb.
  destruct (Z.leb_spec (remaining_units st) 0) as [Hle|_]; [lia|]. cbn [bind].
  cbv zeta in Hcase |- *.
  destruct (Qle_bool bd tolerance) eqn:Etol.
  - left. apply Qle_bool_iff in Etol. repeat split; try assumption.
    destruct Hcase as [(-> & -> & Hall)|(i & -> & Hi & -> & Hlt & Hpre & Hall)];
      assumption.
  - right. apply Qle_bool_false in Etol. split; [assumption|].
    destruct Hcase as [(-> & -> & Hall)|(i & -> & Hi & -> & Hlt & Hpre & Hall)].
    + pose proof initial_below_tolerance. lra.
    + exists i. repeat split; try assumption.
      cbn [iadd]. rewrite add_at_bump by lia. reflexivity.
Qed.

(** The loop always returns; what it returns has the length of the
    grid and holds [k] units more than it started with, where [k] is
    bounded by the iterations and by the remaining units. *)
Lemma run_loop_spec (iters : nat) (st : loop_state) :
  length (s st) = n ->
  exists out k,
    run_loop T unit fee n iters st = Ok out
    /\ length out = n
    /\ (0 <= k <= Z.max 0 (remaining_units st))%Z
    /\ (k <= Z.of_nat iters)%Z
    /\ np_sum out == np_sum (s st) + inject_Z k * unit
    /\ (0 <= unit -> nonneg (s st) -> nonneg out).
Proof.
  revert st; induction iters as [|iters IH]; intros st Hs.
  - exists (s st), 0%Z. cbn [run_loop]. repeat split; try lia; auto.
    change (inject_Z 0) with 0. lra.
  - cbn [run_loop].
    destruct (Z.leb_spec (remaining_units st) 0) as [Hle|Hgt].
    + exists (s st), 0%Z. unfold loop_body.
      destruct (Z.leb_spec (remaining_units st) 0) as [_|?]; [|lia].
      cbn [bind]. repeat split; try lia; auto.
      change (inject_Z 0) with 0. lra.
    + destruct (loop_body_spec st Hs Hgt) as (base & bi & bd & _ & _ & Hcase).
      cbv zeta in Hcase.
      destruct Hcase as [(_ & _ & E)|(_ & i & _ & Hi & _ & _ & _ & E)];
        rewrite E; cbn [bind].
      * exists (s st), 0%Z. repeat split; try lia; auto.
        change (inject_Z 0) with 0. lra.
      * destruct (IH {| s := bump (s st) i unit;
                        remaining_units := remaining_units st - 1 |})
          as (out & k & Er & Hlen & Hk & Hki & Hsum & Hnn).
        { cbn. rewrite bump_length. exact Hs. }
        cbn [s remaining_units] in *.
        exists out, (k + 1)%Z. repeat split; try lia; try assumption.
        -- rewrite Hsum, bump_sum by lia. rewrite inject_Z_plus.
           change (inject_Z 1) with 1. lra.
        -- intros Hu Hnon. apply Hnn; [assumption|].
           apply bump_nonneg; assumption.
Qed.

End Loop.

(** ** Rounding the budget to units *)

Lemma py_round_cases (x : Q) :
  py_round x = Qfloor x
  \/ (py_round x = (Qfloor x + 1)%Z /\ 1 # 2 <= x - inject_Z (Qfloor x)).
Proof.
  unfold py_round.
  destruct (Qcompare_spec (x - inject_Z (Qfloor x)) (1 # 2)) as [E|E|E].
  - destruct (Z.even (Qfloor x)); [now left|right]. split; [reflexivity|].
    rewrite E. apply Qle_refl.
  - now left.
  - right. split; [reflexivity|]. apply Qlt_le_weak, E.
Qed.

Lemma py_round_nonneg (x : Q) : 0 <= x -> (0 <= py_round x)%Z.
Proof.
  intros H. apply Qfloor_resp_le in H. change (Qfloor 0) with 0%Z in H.
  destruct (py_round_cases x) as [->|[-> _]]; lia.
Qed.

Lemma py_round_nonpos (x : Q) : x <= 0 -> (py_round x <= 0)%Z.
Proof.
  intros H. pose proof (Qfloor_resp_le _ _ H) as Hf.
  change (Qfloor 0) with 0%Z in Hf.
  destruct (py_round_cases x) as [->|[-> Hhalf]]; [assumption|].
  assert (Hneg : inject_Z (Qfloor x) < inject_Z 0)
    by (change (inject_Z 0) with 0; lra).
  rewrite <- Zlt_Qlt in Hneg. lia.
Qed.

Lemma py_div_nonzero (x y : Q) : ~ y == 0 -> py_div x y = Ok (x / y).
Proof.
  intros H. unfold py_div.
  destruct (Qeq_bool y 0) eqn:E; [|reflexivity].
  apply Qeq_bool_iff in E. contradiction.
Qed.

Lemma py_div_zero (x y : Q) : y == 0 -> py_div x y = Raise ZeroDivisionError.
Proof.
  intros H. unfold py_div. apply Qeq_bool_iff in H. now rewrite H.
Qed.

(** ** The allocator on a grid of 25 blocks *)

Lemma greedy_optimize_unfold (T : array) (budget unit fee : Q) (max_iters : option Z) :
  length T = 25%nat -> ~ unit == 0 ->
  greedy_optimize T budget unit fee max_iters
  = if (py_round (budget / unit) <=? 0)%Z then Ok (np_zeros 25)
    else run_loop T unit fee 25 (iterations max_iters (py_round (budget / unit)))
           {| s := np_zeros 25; remaining_units := py_round (budget / unit) |}.
Proof.
  intros HT Hu. unfold greedy_optimize. rewrite HT. cbn [Nat.eqb negb].
  rewrite py_div_nonzero by assumption. reflexivity.
Qed.

Lemma greedy_optimize_wrong_length (T : array) (budget unit fee : Q)
    (max_iters : option Z) :
  length T <> 25%nat ->
  greedy_optimize T budget unit fee max_iters = Raise AssertionError.
Proof.
  intros HT. unfold greedy_optimize.
  destruct (Nat.eqb_spec (length T) 25); [contradiction|reflexivity].
Qed.

Lemma greedy_optimize_spec (T : array) (budget unit fee : Q) (max_iters : option Z) :
  length T = 25%nat -> ~ unit == 0 ->
  exists out k,
    greedy_optimize T budget unit fee max_iters = Ok out
    /\ length out = 25%nat
    /\ (0 <= k <= Z.max 0 (py_round (budget / unit)))%Z
    /\ np_sum out == inject_Z k * unit
    /\ (0 <= unit -> nonneg out).
Proof.
  intros HT Hu. rewrite greedy_optimize_unfold by assumption.
  destruct (Z.leb_spec (py_round (budget / unit)) 0) as [Hle|Hgt].
  - exists (np_zeros 25), 0%Z.
    split; [reflexivity|]. split; [reflexivity|]. split; [lia|]. split.
    + rewrite np_sum_zeros. change (inject_Z 0) with 0. lra.
    + intros _. apply zeros_nonneg.
  - destruct (run_loop_spec T unit fee 25 HT ltac:(discriminate)
                (iterations max_iters (py_round (budget / unit)))
                {| s := np_zeros 25; remaining_units := py_round (budget / unit) |})
      as (out & k & E & Hlen & Hk & _ & Hsum & Hnn); [reflexivity|].
    cbn [s remaining_units] in *.
    exists out, k.
    split; [exact E|]. split; [exact Hlen|]. split; [lia|]. split.
    + rewrite Hsum, np_sum_zeros. lra.
    + intros H0. apply Hnn; [assumption|apply zeros_nonneg].
Qed.

(** ** The valuation model: claims *)

Ltac closed_nonneg := unfold nonneg; repeat constructor; discriminate.

(** C1.  For stake vectors [T] and [A] of one length [n], [n >= 1],
    [evaluate] returns, and its expected return is the uniform mean over
    the [n] blocks of
    [payout_i = A[i] + (A[i] / total_i) * (sum_j total_j - total_i)] with
    [total_i = T[i] + A[i]]; a block with [total_i <= 0] is skipped by the
    loop, which leaves both accumulators as they are and divides nothing.
    The kept stake is [sum(A) / n], the reward is the expected return
    minus the kept stake, the fee is taken from the reward only, and
    [ev = keptStake + rewardBeforeFee * (1 - feeRate) - sum(A)].  The
    signs of the entries play no part. *)
Theorem evaluate_matches_specification (T A : array) (feeRate : Q) :
  length T = length A -> length T <> 0%nat ->
  let n := inject_Z (Z.of_nat (length T)) in
  exists r,
    compute_ev T A feeRate = Ok r
    /\ expected_return (comps r) == Spec.sum_over (Spec.payout T A) (seq 0 (length T)) / n
    /\ (forall i, Spec.payout T A i
                  = if Qle_bool (Spec.total T A i) 0 then 0
                    else Spec.entry A i
                         + Spec.entry A i / Spec.total T A i
                           * (Spec.sum_over (Spec.total T A) (seq 0 (length T))
                              - Spec.total T A i))
    /\ (forall i er ore, (i < length T)%nat -> Spec.total T A i <= 0 ->
          block_loop A (zip_add T A) (np_sum (zip_add T A)) [i] er ore = Ok (er, ore))
    /\ expected_kept_stakes (comps r) == np_sum A / n
    /\ expected_rewards_before_fee (comps r)
       = expected_return (comps r) - expected_kept_stakes (comps r)
    /\ ev_sol_after_fees r
       = expected_kept_stakes (comps r)
         + expected_rewards_before_fee (comps r) * (1 - feeRate) - np_sum A
    /\ ev_sol_after_fees r == Spec.ev T A feeRate.
Proof.
  intros Hlen Hn n.
  destruct (components_ok T A Hlen Hn) as (c & Ec & Hret & Hkept & _ & _).
  assert (Hc : expected_rewards_before_fee c
               = expected_return c - expected_kept_stakes c
               /\ expected_kept_stakes c == np_sum A / n).
  { revert Ec. unfold compute_expected_return_and_components.
    destruct (np_add T A) as [tot|]; [|discriminate]. cbn [bind].
    destruct (block_loop _ _ _ _ _ _) as [[er ore]|]; [|discriminate]. cbn [bind].
    destruct (length T =? 0)%nat; [discriminate|].
    intros [= <-]. cbn. split; reflexivity. }
  destruct Hc as [Hrew Hk].
  destruct (compute_ev_ok T A Hlen Hn feeRate) as (r & E & Hev & _).
  assert (Hcomps : comps r = c /\ ev_sol_after_fees r
            = expected_kept_stakes c + expected_rewards_before_fee c * (1 - feeRate)
              - np_sum A).
  { revert E. unfold compute_ev. rewrite Ec. cbn [bind]. intros [= <-]. now cbn. }
  destruct Hcomps as [Hcr Hform].
  exists r. rewrite Hcr. split; [exact E|]. split; [exact Hret|]. split; [reflexivity|].
  split; [|repeat split; assumption].
  intros i er ore Hi Htot. cbn [block_loop].
  rewrite getitem_entry by (rewrite zip_add_length; assumption).
  rewrite zip_add_entry by assumption. cbn [bind].
  apply Qle_bool_iff in Htot. unfold Spec.total in Htot. now rewrite Htot.
Qed.

Lemma evaluate_matches_specification_witness :
  exists r, compute_ev [0; 100] [1; 0] (1 # 10) = Ok r
            /\ ev_sol_after_fees r == 89 # 2.
Proof.
  destruct (evaluate_matches_specification [0; 100] [1; 0] (1 # 10))
    as (r & E & _ & _ & _ & _ & _ & _ & Hev); [reflexivity|discriminate|].
  exists r. split; [exact E|]. rewrite Hev. reflexivity.
Defined.

(** C8.  With the stakes fixed and non-negative, the [ev] that [evaluate]
    returns does not increase when the fee rate does: for [f1 <= f2]
    both calls return and the second [ev] is at most the first.  The
    bounds [0 <= f1] and [f2 < 1] are not needed. *)
Theorem fee_monotonicity (T A : array) (f1 f2 : Q) :
  length T = length A -> length T <> 0%nat -> nonneg T -> nonneg A ->
  f1 <= f2 ->
  exists r1 r2,
    compute_ev T A f1 = Ok r1 /\ compute_ev T A f2 = Ok r2
    /\ ev_sol_after_fees r2 <= ev_sol_after_fees r1.
Proof.
  intros Hlen Hn HT HA Hf.
  destruct (compute_ev_ok T A Hlen Hn f1) as (r1 & E1 & Hev1 & _).
  destruct (compute_ev_ok T A Hlen Hn f2) as (r2 & E2 & Hev2 & _).
  exists r1, r2. split; [exact E1|]. split; [exact E2|].
  rewrite Hev1, Hev2. now apply ev_fee_monotone.
Qed.

Lemma fee_monotonicity_witness :
  exists r1 r2,
    compute_ev [0; 100] [1; 0] 0 = Ok r1
    /\ compute_ev [0; 100] [1; 0] (1 # 10) = Ok r2
    /\ ev_sol_after_fees r2 <= ev_sol_after_fees r1.
Proof.
  apply (fee_monotonicity [0; 100] [1; 0] 0 (1 # 10));
    [reflexivity|discriminate|closed_nonneg|closed_nonneg|discriminate].
Defined.

(** C10.  For non-negative stake vectors of one length [n >= 1] the
    [rawOreShare] diagnostic of [evaluate] lies in [[0, 1]]. *)
Theorem raw_ore_share_bounds (T A : array) (feeRate : Q) :
  length T = length A -> (1 <= length T)%nat -> nonneg T -> nonneg A ->
  exists r,
    compute_ev T A feeRate = Ok r
    /\ 0 <= ore_expected_raw (comps r) <= 1.
Proof.
  intros Hlen Hn HT HA.
  assert (Hn' : length T <> 0%nat) by lia.
  destruct (compute_ev_ok T A Hlen Hn' feeRate) as (r & E & _ & _ & _ & Hore & _).
  exists r. split; [exact E|]. rewrite Hore. now apply raw_share_bounds.
Qed.

Lemma raw_ore_share_bounds_witness :
  exists r,
    compute_ev [0; 100] [1; 0] (1 # 10) = Ok r
    /\ 0 <= ore_expected_raw (comps r) <= 1.
Proof.
  apply (raw_ore_share_bounds [0; 100] [1; 0] (1 # 10));
    [reflexivity|simpl; lia|closed_nonneg|closed_nonneg].
Defined.

(** ** The greedy loop: claims *)

(** C2.  In an iteration that reaches the scan (the grid and the
    allocation have one length [n >= 1] and units remain), every block
    [j < n] has a marginal delta [delta j].  Let [i] be the lowest index
    whose delta is the largest: no delta exceeds [delta i], and every
    delta before [i] is strictly smaller.  Then the scan selects [i] as
    soon as [delta i] exceeds the initial [-1e18], and the iteration
    commits its unit to [i] as soon as [delta i] exceeds the tolerance;
    a later block with an equal delta never takes its place. *)
Theorem tie_break_lowest_index (T : array) (unit feeRate : Q) (st : loop_state) :
  let n := length T in
  n <> 0%nat -> length (s st) = n -> (0 < remaining_units st)%Z ->
  exists base,
    compute_ev T (s st) feeRate = Ok base
    /\ let delta := delta_of T unit feeRate (s st) (ev_sol_after_fees base) in
       (forall j, (j < n)%nat ->
          marginal_delta T unit feeRate (s st) (ev_sol_after_fees base) j
          = Ok (delta j))
       /\ forall i, (i < n)%nat ->
            (forall j, (j < n)%nat -> delta j <= delta i) ->
            (forall j, (j < i)%nat -> delta j < delta i) ->
            (initial_best_delta < delta i ->
               best_block T unit feeRate n (s st) = Ok (Some i, delta i))
            /\ (tolerance < delta i ->
                  exists s', add_at (s st) i unit = Ok s'
                    /\ loop_body T unit feeRate n st
                       = Ok (Next {| s := s';
                                     remaining_units := remaining_units st - 1 |})).
Proof.
  intros n Hn Hs Hrem.
  destruct (loop_body_spec T unit feeRate n eq_refl Hn st Hs Hrem)
    as (base & bi & bd & E & Eb & Hcase).
  exists base. split; [exact E|]. intros delta. split.
  - intros j Hj. now apply marginal_delta_defined with (n := n).
  - intros i Hi Hmax Hfirst. fold delta in Hcase.
    assert (Hsame : forall i', (i' < n)%nat ->
              (forall j, (j < i')%nat -> delta j < delta i') ->
              (forall j, (j < n)%nat -> delta j <= delta i') -> i' = i).
    { intros i' Hi' Hpre Hall.
      destruct (Nat.lt_trichotomy i' i) as [Hlt|[Heq|Hlt]]; [|exact Heq|].
      - pose proof (Hfirst i' Hlt). pose proof (Hall i Hi). lra.
      - pose proof (Hpre i Hlt). pose proof (Hmax i' Hi'). lra. }
    destruct Hcase as [(Htol & Hall & Ebody)|(Htol & i' & -> & Hi' & -> & Hpre & Hall & Ebody)].
    + pose proof (Hall i Hi). split.
      * intros Hinit.
        destruct (best_block_spec T unit feeRate n eq_refl Hn (s st) Hs)
          as (base' & bi' & bd' & E' & Eb' & Hcase').
        rewrite E in E'. injection E' as <-. fold delta in Hcase'.
        rewrite Eb in Eb'. injection Eb' as <- <-.
        destruct Hcase' as [(-> & -> & Hall')|(i' & -> & Hi' & -> & _ & Hpre & Hall')].
        -- pose proof (Hall' i Hi). lra.
        -- rewrite (Hsame i' Hi' Hpre Hall') in Eb. exact Eb.
      * intros Hgt. lra.
    + rewrite (Hsame i' Hi' Hpre Hall) in *. split.
      * intros _. exact Eb.
      * intros _. exists (bump (s st) i unit). split; [|exact Ebody].
        apply add_at_bump. lia.
Qed.

Lemma tie_break_lowest_index_witness :
  exists s',
    add_at [0; 0; 0] 0 1 = Ok s'
    /\ loop_body grid_two_equal 1 0 3 {| s := [0; 0; 0]; remaining_units := 2 |}
       = Ok (Next {| s := s'; remaining_units := 1 |}).
Proof.
  destruct (tie_break_lowest_index grid_two_equal 1 0
              {| s := [0; 0; 0]; remaining_units := 2 |})
    as (base & E & _ & H); [discriminate|reflexivity|reflexivity|].
  injection E as <-.
  destruct (H 0%nat) as [_ Hcommit].
  - simpl; lia.
  - intros [|[|[|j]]] Hj; [discriminate ..|simpl in Hj; lia].
  - intros j Hj. lia.
  - apply Hcommit. reflexivity.
Defined.

(** C3.  In an iteration that reaches the scan, the scan returns a
    selected index and its delta, which no block's marginal delta
    exceeds.  If that delta is at most the tolerance
    [1e-12] the body breaks with the state unchanged and the loop returns
    the current allocation, whatever number of iterations was left.
    Otherwise the selected index [i] exists, the new allocation is the
    old one with [unit] added to entry [i] and to no other entry,
    [remainingUnits] is one less, and the loop goes on from there. *)
Theorem tolerance_stop_or_commit (T : array) (unit feeRate : Q) (st : loop_state) :
  let n := length T in
  n <> 0%nat -> length (s st) = n -> (0 < remaining_units st)%Z ->
  exists base best_idx best_delta,
    compute_ev T (s st) feeRate = Ok base
    /\ best_block T unit feeRate n (s st) = Ok (best_idx, best_delta)
    /\ (forall j, (j < n)%nat ->
          delta_of T unit feeRate (s st) (ev_sol_after_fees base) j <= best_delta)
    /\ (best_delta <= tolerance ->
          loop_body T unit feeRate n st = Ok (Break st)
          /\ forall iters, run_loop T unit feeRate n (S iters) st = Ok (s st))
    /\ (tolerance < best_delta ->
          exists i s',
            best_idx = Some i
            /\ add_at (s st) i unit = Ok s'
            /\ length s' = n
            /\ Spec.entry s' i = Spec.entry (s st) i + unit
            /\ (forall j, j <> i -> Spec.entry s' j = Spec.entry (s st) j)
            /\ loop_body T unit feeRate n st
               = Ok (Next {| s := s'; remaining_units := remaining_units st - 1 |})
            /\ forall iters,
                 run_loop T unit feeRate n (S iters) st
                 = run_loop T unit feeRate n iters
                     {| s := s'; remaining_units := remaining_units st - 1 |}).
Proof.
  intros n Hn Hs Hrem.
  destruct (loop_body_spec T unit feeRate n eq_refl Hn st Hs Hrem)
    as (base & bi & bd & E & Eb & Hcase).
  exists base, bi, bd. split; [exact E|]. split; [exact Eb|]. cbv zeta in Hcase.
  destruct Hcase as [(Htol & Hall & Ebody)|(Htol & i & -> & Hi & -> & _ & Hall & Ebody)];
    (split; [exact Hall|]).
  - split.
    + intros _. split; [exact Ebody|].
      intros iters. cbn [run_loop]. rewrite Ebody. reflexivity.
    + intros Hgt. lra.
  - split.
    + intros Hle. lra.
    + intros _. exists i, (bump (s st) i unit).
      split; [reflexivity|].
      split; [apply add_at_bump; lia|].
      split; [rewrite bump_length; exact Hs|].
      split; [apply bump_entry_same; lia|].
      split; [intros j Hj; apply bump_entry_other; congruence|].
      split; [exact Ebody|].
      intros iters. cbn [run_loop]. rewrite Ebody. reflexivity.
Qed.

Lemma tolerance_stop_or_commit_witness :
  loop_body [0; 0] (1 # 1000) 0 2 {| s := [0; 0]; remaining_units := 2 |}
  = Ok (Break {| s := [0; 0]; remaining_units := 2 |}).
Proof.
  destruct (tolerance_stop_or_commit [0; 0] (1 # 1000) 0
              {| s := [0; 0]; remaining_units := 2 |})
    as (base & bi & bd & _ & E & _ & Hstop & _);
    [discriminate|reflexivity|reflexivity|].
  injection E as <- <-.
  apply Hstop. discriminate.
Defined.

(** ** The allocator: claims *)

Lemma quotient_nonneg (budget unit : Q) : 0 <= budget -> 0 < unit -> 0 <= budget / unit.
Proof.
  intros Hb Hu. apply Qle_shift_div_l; [assumption|lra].
Qed.

Lemma quotient_nonpos (budget unit : Q) :
  (budget <= 0 /\ 0 < unit) \/ (0 <= budget /\ unit < 0) -> budget / unit <= 0.
Proof.
  intros [[Hb Hu]|[Hb Hu]].
  - apply Qle_shift_div_r; [assumption|lra].
  - setoid_replace (budget / unit) with ((- budget) / (- unit))
      by (field; intros H; rewrite H in Hu; discriminate).
    apply Qle_shift_div_r; lra.
Qed.

Lemma greedy_optimize_no_units (T : array) (budget unit fee : Q)
    (max_iters : option Z) :
  length T = 25%nat -> ~ unit == 0 -> budget / unit <= 0 ->
  greedy_optimize T budget unit fee max_iters = Ok (np_zeros 25).
Proof.
  intros HT Hu Hq. rewrite greedy_optimize_unfold by assumption.
  pose proof (py_round_nonpos _ Hq) as Hr.
  destruct (Z.leb_spec (py_round (budget / unit)) 0); [reflexivity|lia].
Qed.

(** C4, as the specification states it, fails: a budget of 1.5 with unit 1
    is rounded to two units, both are committed, and the allocation sums
    to 2, more than [floor(1.5 / 1) * 1 = 1]. *)
Lemma budget_floor_overspent :
  0 <= 3 # 2 /\ 0 < 1
  /\ exists out,
       greedy_optimize sample_grid (3 # 2) 1 0 None = Ok out
       /\ ~ np_sum out <= inject_Z (Qfloor ((3 # 2) / 1)) * 1.
Proof.
  split; [discriminate|]. split; [reflexivity|].
  eexists. split; [vm_compute; reflexivity|].
  vm_compute. intros H. apply H. reflexivity.
Qed.

(** C4, amended.  For [budget >= 0] and [unit > 0] the allocation that
    [optimize] returns sums to at most [round(budget / unit) * unit],
    where [round] is to the nearest integer, ties to even; that count is
    at most [floor(budget / unit) + 1].  On a grid of 25 blocks an
    allocation is returned. *)
Theorem budget_conservation_rounded (T : array) (budget unit feeRate : Q)
    (max_iters : option Z) :
  0 <= budget -> 0 < unit ->
  (length T = 25%nat ->
     exists out, greedy_optimize T budget unit feeRate max_iters = Ok out)
  /\ (forall out,
        greedy_optimize T budget unit feeRate max_iters = Ok out ->
        np_sum out <= inject_Z (py_round (budget / unit)) * unit)
  /\ (py_round (budget / unit) <= Qfloor (budget / unit) + 1)%Z.
Proof.
  intros Hb Hu.
  assert (Hu' : ~ unit == 0) by (intros H; rewrite H in Hu; discriminate).
  split; [|split].
  - intros HT.
    destruct (greedy_optimize_spec T budget unit feeRate max_iters HT Hu')
      as (out & _ & E & _).
    now exists out.
  - intros out E.
    destruct (Nat.eq_dec (length T) 25) as [HT|HT].
    + destruct (greedy_optimize_spec T budget unit feeRate max_iters HT Hu')
        as (out' & k & E' & _ & Hk & Hsum & _).
      rewrite E in E'. injection E' as <-.
      pose proof (py_round_nonneg _ (quotient_nonneg budget unit Hb Hu)) as Hr.
      assert (Hle : inject_Z k <= inject_Z (py_round (budget / unit)))
        by (rewrite <- Zle_Qle; lia).
      rewrite Hsum. apply Qmult_le_compat_r; [exact Hle|lra].
    + rewrite greedy_optimize_wrong_length in E by assumption. discriminate.
  - destruct (py_round_cases (budget / unit)) as [->|[-> _]]; lia.
Qed.

Lemma budget_conservation_rounded_witness :
  exists out,
    greedy_optimize sample_grid (3 # 2) 1 0 None = Ok out
    /\ np_sum out <= inject_Z (py_round ((3 # 2) / 1)) * 1.
Proof.
  destruct (budget_conservation_rounded sample_grid (3 # 2) 1 0 None)
    as (Hreturns & Hbound & _); [discriminate|reflexivity|].
  destruct (Hreturns eq_refl) as [out E].
  exists out. split; [exact E|apply Hbound, E].
Defined.

(** C5, as the specification states it, fails: a grid of two blocks with
    budget 1, unit 1 and no fee meets every invariant of the data model,
    and [optimize] raises [AssertionError] on it. *)
Lemma optimize_rejects_two_blocks :
  nonneg [1; 2] /\ (1 <= length [1; 2])%nat
  /\ greedy_optimize [1; 2] 1 1 0 None = Raise AssertionError
  /\ ~ exists out, greedy_optimize [1; 2] 1 1 0 None = Ok out.
Proof.
  split; [closed_nonneg|]. split; [simpl; lia|]. split; [reflexivity|].
  intros [out E]. discriminate E.
Qed.

(** C5, amended.  On a grid of exactly 25 blocks, with [unit > 0],
    [optimize] raises nothing and returns an allocation of 25
    non-negative entries; on a grid of any other length its assertion
    [n == 25] fails. *)
Theorem optimize_total_on_25_blocks (T : array) (budget unit feeRate : Q)
    (max_iters : option Z) :
  0 < unit ->
  (length T = 25%nat ->
     exists out,
       greedy_optimize T budget unit feeRate max_iters = Ok out
       /\ length out = 25%nat /\ nonneg out)
  /\ (length T <> 25%nat ->
        greedy_optimize T budget unit feeRate max_iters = Raise AssertionError).
Proof.
  intros Hu.
  assert (Hu' : ~ unit == 0) by (intros H; rewrite H in Hu; discriminate).
  split.
  - intros HT.
    destruct (greedy_optimize_spec T budget unit feeRate max_iters HT Hu')
      as (out & _ & E & Hlen & _ & _ & Hnn).
    exists out. repeat split; try assumption. apply Hnn. lra.
  - apply greedy_optimize_wrong_length.
Qed.

Lemma optimize_total_on_25_blocks_witness :
  exists out,
    greedy_optimize sample_grid 2 1 (1 # 10) None = Ok out
    /\ length out = 25%nat /\ nonneg out.
Proof.
  apply (optimize_total_on_25_blocks sample_grid 2 1 (1 # 10) None);
    reflexivity.
Defined.

(** C6, as the specification states it, fails: on a grid of 25 blocks,
    [unit = 0] makes [budget / unit] raise [ZeroDivisionError], and with
    [budget = -1] and [unit = -1] one unit is rounded out of the quotient
    and committed, so the allocation is not zero. *)
Lemma degenerate_inputs_not_noop :
  greedy_optimize sample_grid (-1) 0 0 None = Raise ZeroDivisionError
  /\ exists out,
       greedy_optimize sample_grid (-1) (-1) 0 None = Ok out
       /\ Spec.entry out 0 == -1.
Proof.
  split; [reflexivity|].
  eexists. split; [vm_compute; reflexivity|]. reflexivity.
Qed.

(** C6, amended.  On a grid of 25 blocks, for every fee rate, [optimize]
    returns the all-zero allocation and raises nothing when
    [budget <= 0] and [unit > 0], and when [budget >= 0] and [unit < 0];
    with [unit = 0] it raises [ZeroDivisionError]. *)
Theorem degenerate_inputs_zero_allocation (T : array) (budget unit feeRate : Q)
    (max_iters : option Z) :
  length T = 25%nat ->
  ((budget <= 0 /\ 0 < unit) \/ (0 <= budget /\ unit < 0) ->
     greedy_optimize T budget unit feeRate max_iters = Ok (np_zeros 25))
  /\ (unit == 0 ->
        greedy_optimize T budget unit feeRate max_iters = Raise ZeroDivisionError).
Proof.
  intros HT. split.
  - intros H.
    assert (Hu : ~ unit == 0).
    { intros E. destruct H as [[_ Hu]|[_ Hu]]; rewrite E in Hu; discriminate. }
    apply greedy_optimize_no_units; [assumption|assumption|].
    now apply quotient_nonpos.
  - intros E. unfold greedy_optimize. rewrite HT. cbn [Nat.eqb negb].
    now rewrite py_div_zero.
Qed.

Lemma degenerate_inputs_zero_allocation_witness :
  greedy_optimize sample_grid (-1) 1 0 None = Ok (np_zeros 25).
Proof.
  apply (degenerate_inputs_zero_allocation sample_grid (-1) 1 0 None);
    [reflexivity|left; split; [discriminate|reflexivity]].
Defined.

Lemma zero_allocation_ev (T : array) (feeRate : Q) :
  length T <> 0%nat -> Spec.ev T (np_zeros (length T)) feeRate == 0.
Proof.
  intros Hn. pose proof (count_pos _ Hn) as Hc.
  set (A := np_zeros (length T)).
  assert (Hpay : Spec.sum_over (Spec.payout T A) (seq 0 (length T)) == 0).
  { rewrite (sum_over_ext _ (fun _ => 0)); [rewrite sum_over_const; lra|].
    intros i _. unfold Spec.payout.
    destruct (Qle_bool (Spec.total T A i) 0) eqn:E; [reflexivity|].
    apply Qle_bool_false in E.
    unfold A in *. rewrite zeros_entry. unfold Qdiv. rewrite !Qmult_0_l. lra. }
  assert (Hkept : Spec.sum_over (Spec.entry A) (seq 0 (length T)) == 0).
  { rewrite (sum_over_ext _ (fun _ => 0)); [rewrite sum_over_const; lra|].
    intros i _. unfold A. now rewrite zeros_entry. }
  unfold Spec.ev, Spec.expectedReturnAfterFee, Spec.expectedRewardAfterFee,
    Spec.expectedRewardBeforeFee, Spec.expectedReturn, Spec.expectedKeptStake,
    Spec.cost.
  fold A. rewrite Hpay, Hkept. unfold Qdiv. rewrite !Qmult_0_l. lra.
Qed.

(** C7, as the specification states it, fails: on a grid of two blocks
    [optimize] with budget 0 raises [AssertionError] and returns no
    allocation. *)
Lemma noop_budget_two_blocks :
  0 < 1
  /\ greedy_optimize [1; 2] 0 1 0 None = Raise AssertionError
  /\ greedy_optimize [1; 2] 0 1 0 None <> Ok (np_zeros 2).
Proof.
  split; [reflexivity|]. split; [reflexivity|]. discriminate.
Qed.

(** C7, amended.  For [unit > 0] and every fee rate: on a grid [T] of 25
    blocks [optimize(T, budget=0, unit, feeRate)] returns the all-zero
    allocation, and on a grid of any length [n >= 1]
    [evaluate(T, zeroAllocation, feeRate)] returns with [ev] equal to 0. *)
Theorem noop_budget (T : array) (unit feeRate : Q) (max_iters : option Z) :
  0 < unit ->
  (length T = 25%nat ->
     greedy_optimize T 0 unit feeRate max_iters = Ok (np_zeros (length T)))
  /\ ((1 <= length T)%nat ->
        exists r,
          compute_ev T (np_zeros (length T)) feeRate = Ok r
          /\ ev_sol_after_fees r == 0).
Proof.
  intros Hu. split.
  - intros HT. rewrite HT.
    apply greedy_optimize_no_units; [exact HT| |].
    + intros H. rewrite H in Hu. discriminate.
    + apply quotient_nonpos. left. split; [apply Qle_refl|exact Hu].
  - intros Hn.
    assert (Hn' : length T <> 0%nat) by lia.
    destruct (compute_ev_ok T (np_zeros (length T))) with (fee := feeRate)
      as (r & E & Hev & _);
      [now rewrite zeros_length|exact Hn'|].
    exists r. split; [exact E|]. rewrite Hev. now apply zero_allocation_ev.
Qed.

Lemma noop_budget_witness :
  greedy_optimize sample_grid 0 (1 # 1000) (1 # 10) None = Ok (np_zeros 25)
  /\ exists r,
       compute_ev sample_grid (np_zeros 25) (1 # 10) = Ok r
       /\ ev_sol_after_fees r == 0.
Proof.
  destruct (noop_budget sample_grid (1 # 1000) (1 # 10) None) as [H1 H2];
    [reflexivity|].
  split; [apply H1; reflexivity|apply H2; simpl; lia].
Defined.

(** ** Two runs on equal inputs *)

Lemma same_values_refl (a : array) : same_values a a.
Proof. induction a; constructor; [reflexivity|assumption]. Qed.

Lemma bind_same {A B : Type} (R : A -> A -> Prop) (R' : B -> B -> Prop)
    (m m' : result A) (k k' : A -> result B) :
  same_result R m m' ->
  (forall a a', R a a' -> same_result R' (k a) (k' a')) ->
  same_result R' (bind m k) (bind m' k').
Proof.
  intros [a b Hab|e] Hk; cbn [bind]; auto with two_runs.
Qed.

Lemma fold_left_Qplus_same (a b : array) (x y : Q) :
  same_values a b -> x == y -> fold_left Qplus a x == fold_left Qplus b y.
Proof.
  intros H; revert x y; induction H as [|u v a b Huv _ IH]; intros x y Hxy; simpl.
  - exact Hxy.
  - apply IH. now rewrite Huv, Hxy.
Qed.

Lemma np_sum_same (a b : array) : same_values a b -> np_sum a == np_sum b.
Proof.
  intros H. apply fold_left_Qplus_same; [exact H|reflexivity].
Qed.

Lemma getitem_same (a b : array) (i : nat) :
  same_values a b -> same_result Qeq (getitem a i) (getitem b i).
Proof.
  unfold getitem. intros H; revert i.
  induction H as [|u v a b Huv _ IH]; intros [|i]; simpl; auto with two_runs.
Qed.

Lemma zip_add_same (a a' b b' : array) :
  same_values a a' -> same_values b b' ->
  same_values (zip_add a b) (zip_add a' b').
Proof.
  intros Ha; revert b b'.
  induction Ha as [|x x' a a' Hx _ IH]; intros b b' Hb; [constructor|].
  destruct Hb as [|y y' b b' Hy Hb]; simpl; constructor.
  - now rewrite Hx, Hy.
  - now apply IH.
Qed.

Lemma map_add_same (f g : Q -> Q) (a b : array) :
  (forall x y, x == y -> f x == g y) ->
  same_values a b -> same_values (map f a) (map g b).
Proof.
  intros Hfg H; induction H; simpl; constructor; auto.
Qed.

Lemma np_add_same (a a' b b' : array) :
  same_values a a' -> same_values b b' ->
  same_result same_values (np_add a b) (np_add a' b').
Proof.
  intros Ha Hb. unfold np_add.
  rewrite <- (Forall2_length Ha), <- (Forall2_length Hb).
  destruct (length a =? length b)%nat.
  - constructor. now apply zip_add_same.
  - destruct Ha as [|x x' a a' Hx Ha].
    + destruct Hb as [|y y' b b' Hy Hb]; [constructor|].
      destruct Hb; constructor. constructor.
    + destruct Ha as [|u u' a a' Hu Ha].
      * constructor. apply map_add_same; [|exact Hb].
        intros p q Hpq. now rewrite Hx, Hpq.
      * destruct Hb as [|y y' b b' Hy Hb]; [constructor|].
        destruct Hb; constructor.
        apply (map_add_same (fun p => p + y) (fun p => p + y'));
          [intros p q Hpq; now rewrite Hy, Hpq|].
        repeat (constructor; try assumption).
Qed.

Lemma add_at_same (a b : array) (i : nat) (v w : Q) :
  same_values a b -> v == w ->
  same_result same_values (add_at a i v) (add_at b i w).
Proof.
  intros H Hvw; revert i.
  induction H as [|x y a b Hxy Hab IH]; intros [|i]; simpl;
    try (constructor; fail).
  - constructor. constructor; [now rewrite Hxy, Hvw|assumption].
  - apply bind_same with (R := same_values); [apply IH|].
    intros r r' Hr. constructor. now constructor.
Qed.

Lemma iadd_same (a b : array) (idx : option nat) (v w : Q) :
  same_values a b -> v == w ->
  same_result same_values (iadd a idx v) (iadd b idx w).
Proof.
  intros H Hvw. destruct idx as [i|]; simpl.
  - now apply add_at_same.
  - constructor. apply map_add_same; [|exact H].
    intros p q Hpq. now rewrite Hvw, Hpq.
Qed.

Lemma Qgt_bool_same (x x' y y' : Q) :
  x == x' -> y == y' -> Qgt_bool x y = Qgt_bool x' y'.
Proof.
  intros Hx Hy. unfold Qgt_bool. now rewrite Hx, Hy.
Qed.

Lemma py_round_same (x y : Q) : x == y -> py_round x = py_round y.
Proof.
  intros H. unfold py_round. rewrite (Qfloor_comp _ _ H).
  now rewrite H.
Qed.

Section TwoRuns.

Variables T T' : array.
Hypothesis T_same : same_values T T'.

Lemma block_loop_same (a a' tot tot' : array) (S S' : Q) (idxs : list nat)
    (er er' ore ore' : Q) :
  same_values a a' -> same_values tot tot' -> S == S' ->
  er == er' -> ore == ore' ->
  same_result same_pair (block_loop a tot S idxs er ore)
                        (block_loop a' tot' S' idxs er' ore').
Proof.
  intros Ha Htot HS. revert er er' ore ore'.
  induction idxs as [|i idxs IH]; intros er er' ore ore' Her Hore;
    cbn [block_loop].
  - constructor. split; assumption.
  - apply bind_same with (R := Qeq); [now apply getitem_same|].
    intros d d' Hd.
    assert (Hb : Qle_bool d 0 = Qle_bool d' 0) by now rewrite Hd.
    rewrite Hb. destruct (Qle_bool d' 0); [now apply IH|].
    apply bind_same with (R := Qeq); [now apply getitem_same|].
    intros x x' Hx. apply IH.
    + now rewrite Her, Hx, Hd, HS.
    + now rewrite Hore, Hx, Hd.
Qed.

Lemma components_same (a a' : array) :
  same_values a a' ->
  same_result same_components
    (compute_expected_return_and_components T a)
    (compute_expected_return_and_components T' a').
Proof.
  intros Ha. unfold compute_expected_return_and_components.
  rewrite <- (Forall2_length T_same).
  apply bind_same with (R := same_values); [now apply np_add_same|].
  intros tot tot' Htot.
  apply bind_same with (R := same_pair).
  - apply block_loop_same; try assumption; try reflexivity.
    now apply np_sum_same.
  - intros [er ore] [er' ore'] [Her Hore]. cbn [fst snd] in Her, Hore.
    destruct (length T =? 0)%nat; constructor.
    pose proof (np_sum_same a a' Ha) as Hsum.
    repeat split; cbn; now rewrite ?Her, ?Hore, ?Hsum.
Qed.

Variables fee fee' : Q.
Hypothesis fee_same : fee == fee'.

Lemma compute_ev_same (a a' : array) :
  same_values a a' ->
  same_result same_ev (compute_ev T a fee) (compute_ev T' a' fee').
Proof.
  intros Ha. unfold compute_ev.
  apply bind_same with (R := same_components); [now apply components_same|].
  intros c c' Hc. constructor.
  pose proof (np_sum_same a a' Ha) as Hsum.
  destruct Hc as (H1 & H2 & H3 & H4).
  repeat split; cbn; try assumption; now rewrite ?H2, ?H3, ?fee_same, ?Hsum.
Qed.

Variables unit unit' : Q.
Hypothesis unit_same : unit == unit'.

Lemma marginal_delta_same (a a' : array) (base base' : Q) (i : nat) :
  same_values a a' -> base == base' ->
  same_result Qeq (marginal_delta T unit fee a base i)
                  (marginal_delta T' unit' fee' a' base' i).
Proof.
  intros Ha Hbase. unfold marginal_delta.
  apply bind_same with (R := same_values); [now apply add_at_same|].
  intros t t' Ht.
  apply bind_same with (R := same_ev); [now apply compute_ev_same|].
  intros r r' (Hev & _). constructor. now rewrite Hev, Hbase.
Qed.

Lemma scan_blocks_same (a a' : array) (base base' : Q) (idxs : list nat)
    (best_idx : option nat) (best_delta best_delta' : Q) :
  same_values a a' -> base == base' -> best_delta == best_delta' ->
  same_result same_best
    (scan_blocks T unit fee a base idxs best_idx best_delta)
    (scan_blocks T' unit' fee' a' base' idxs best_idx best_delta').
Proof.
  intros Ha Hbase. revert best_idx best_delta best_delta'.
  induction idxs as [|i idxs IH]; intros best_idx bd bd' Hbd; cbn [scan_blocks].
  - constructor. split; [reflexivity|exact Hbd].
  - apply bind_same with (R := Qeq); [now apply marginal_delta_same|].
    intros d d' Hd. rewrite (Qgt_bool_same d d' bd bd' Hd Hbd).
    destruct (Qgt_bool d' bd'); now apply IH.
Qed.

Lemma best_block_same (n : nat) (a a' : array) :
  same_values a a' ->
  same_result same_best (best_block T unit fee n a) (best_block T' unit' fee' n a').
Proof.
  intros Ha. unfold best_block.
  apply bind_same with (R := same_ev); [now apply compute_ev_same|].
  intros r r' (Hev & _). apply scan_blocks_same; [assumption|assumption|reflexivity].
Qed.

Lemma loop_body_same (n : nat) (st st' : loop_state) :
  same_state st st' ->
  same_result same_iteration (loop_body T unit fee n st)
                             (loop_body T' unit' fee' n st').
Proof.
  intros [Hs Hrem]. unfold loop_body. rewrite <- Hrem.
  destruct (remaining_units st <=? 0)%Z.
  - constructor. constructor. now split.
  - apply bind_same with (R := same_best); [now apply best_block_same|].
    intros [bi bd] [bi' bd'] [Hbi Hbd]. cbn [fst snd] in Hbi, Hbd. subst bi'.
    assert (Hb : Qle_bool bd tolerance = Qle_bool bd' tolerance) by now rewrite Hbd.
    rewrite Hb. destruct (Qle_bool bd' tolerance).
    + constructor. constructor. now split.
    + apply bind_same with (R := same_values); [now apply iadd_same|].
      intros t t' Ht. constructor. constructor. now split.
Qed.

Lemma run_loop_same (n iters : nat) (st st' : loop_state) :
  same_state st st' ->
  same_result same_values (run_loop T unit fee n iters st)
                          (run_loop T' unit' fee' n iters st').
Proof.
  revert st st'; induction iters as [|iters IH]; intros st st' Hst; cbn [run_loop].
  - constructor. apply Hst.
  - apply bind_same with (R := same_iteration); [now apply loop_body_same|].
    intros it it' [u u' Hu|u u' Hu].
    + constructor. apply Hu.
    + now apply IH.
Qed.

Lemma greedy_optimize_same (budget budget' : Q) (max_iters : option Z) :
  budget == budget' ->
  same_result same_values
    (greedy_optimize T budget unit fee max_iters)
    (greedy_optimize T' budget' unit' fee' max_iters).
Proof.
  intros Hb. unfold greedy_optimize.
  rewrite <- (Forall2_length T_same).
  destruct (negb (length T =? 25)%nat); [constructor|].
  apply bind_same with (R := Qeq).
  - unfold py_div.
    assert (Hz : Qeq_bool unit 0 = Qeq_bool unit' 0) by now rewrite unit_same.
    rewrite Hz. destruct (Qeq_bool unit' 0); constructor.
    now rewrite Hb, unit_same.
  - intros q q' Hq. rewrite (py_round_same q q' Hq).
    destruct (py_round q' <=? 0)%Z.
    + constructor. apply same_values_refl.
    + apply run_loop_same. split; [apply same_values_refl|reflexivity].
Qed.

End TwoRuns.

(** C9.  [optimize] is deterministic.  Two calls on identical
    [opponentStakes], [budget], [unit], [feeRate] and [maxIters] end
    identically: the same exception, or the same allocation entry for
    entry.  The outcome depends on the numbers alone: two calls whose
    inputs are equal as numbers, however the fractions are written, raise
    the same exception or return allocations equal entry by entry. *)
Theorem optimize_deterministic (T T' : array)
    (budget budget' unit unit' feeRate feeRate' : Q)
    (max_iters max_iters' : option Z) :
  (T = T' -> budget = budget' -> unit = unit' -> feeRate = feeRate' ->
   max_iters = max_iters' ->
   greedy_optimize T budget unit feeRate max_iters
   = greedy_optimize T' budget' unit' feeRate' max_iters')
  /\ (same_values T T' -> budget == budget' -> unit == unit' ->
      feeRate == feeRate' -> max_iters = max_iters' ->
      same_result same_values
        (greedy_optimize T budget unit feeRate max_iters)
        (greedy_optimize T' budget' unit' feeRate' max_iters')).
Proof.
  split.
  - intros -> -> -> -> ->. reflexivity.
  - intros HT Hb Hu Hf <-. now apply greedy_optimize_same.
Qed.

Lemma optimize_deterministic_witness :
  same_result same_values
    (greedy_optimize sample_grid (3 # 2) 1 (1 # 10) None)
    (greedy_optimize sample_grid (6 # 4) (2 # 2) (10 # 100) None).
Proof.
  apply (optimize_deterministic sample_grid sample_grid
           (3 # 2) (6 # 4) 1 (2 # 2) (1 # 10) (10 # 100) None None);
    [apply same_values_refl|reflexivity..].
Defined.

(** ** The valuation model: errors *)

(** X1.  On an empty opponent grid [compute_ev] never returns: with an
    allocation of at most one entry the addition broadcasts to an empty
    array and [expected_return /= n] divides by zero; with a longer one
    the addition itself fails. *)
Theorem compute_ev_empty_grid (A : array) (feeRate : Q) :
  ((length A <= 1)%nat -> compute_ev [] A feeRate = Raise ZeroDivisionError)
  /\ ((2 <= length A)%nat -> compute_ev [] A feeRate = Raise ValueError).
Proof.
  split; intros H.
  - destruct A as [|x [|y A]]; [reflexivity|reflexivity|simpl in H; lia].
  - destruct A as [|x [|y A]]; [simpl in H; lia|simpl in H; lia|reflexivity].
Qed.

Lemma compute_ev_empty_grid_witness :
  compute_ev [] [1] 0 = Raise ZeroDivisionError
  /\ compute_ev [] [1; 2] 0 = Raise ValueError.
Proof.
  destruct (compute_ev_empty_grid [1] 0) as [H1 _].
  destruct (compute_ev_empty_grid [1; 2] 0) as [_ H2].
  split; [apply H1; simpl; lia|apply H2; simpl; lia].
Defined.

Lemma np_add_mismatch (a b : array) :
  length a <> length b -> length a <> 1%nat -> length b <> 1%nat ->
  np_add a b = Raise ValueError.
Proof.
  intros Hab Ha Hb. unfold np_add.
  destruct (Nat.eqb_spec (length a) (length b)) as [E|_]; [contradiction|].
  destruct a as [|x [|x' a]]; destruct b as [|y [|y' b]]; simpl in *;
    try reflexivity; congruence.
Qed.

(** X2.  Stake vectors of different lengths, neither of length one, make
    [compute_ev] raise [ValueError]: nothing is evaluated on a grid and an
    allocation that do not line up. *)
Theorem compute_ev_length_mismatch (T A : array) (feeRate : Q) :
  length T <> length A -> length T <> 1%nat -> length A <> 1%nat ->
  compute_ev T A feeRate = Raise ValueError.
Proof.
  intros Hlen HT HA. unfold compute_ev, compute_expected_return_and_components.
  now rewrite np_add_mismatch.
Qed.

Lemma compute_ev_length_mismatch_witness :
  compute_ev [1; 2; 3] [1; 2] (1 # 10) = Raise ValueError.
Proof.
  apply (compute_ev_length_mismatch [1; 2; 3] [1; 2] (1 # 10)); simpl; lia.
Defined.

(** ** The valuation model: identities and bounds *)

Lemma sum_over_scale (f : nat -> Q) (c : Q) (idxs : list nat) :
  Spec.sum_over (fun i => f i * c) idxs == Spec.sum_over f idxs * c.
Proof.
  induction idxs as [|i idxs IH]; simpl; [lra|]. rewrite IH. lra.
Qed.

Lemma sum_over_plus (f g : nat -> Q) (idxs : list nat) :
  Spec.sum_over (fun i => f i + g i) idxs
  == Spec.sum_over f idxs + Spec.sum_over g idxs.
Proof.
  induction idxs as [|i idxs IH]; simpl; [lra|]. rewrite IH. lra.
Qed.

Lemma sum_over_nonneg (f : nat -> Q) (idxs : list nat) :
  (forall i, In i idxs -> 0 <= f i) -> 0 <= Spec.sum_over f idxs.
Proof.
  intros H. rewrite <- (Qmult_0_l (inject_Z (Z.of_nat (length idxs)))).
  rewrite <- sum_over_const. now apply sum_over_le.
Qed.

Lemma pool_sum (T A : array) :
  length T = length A ->
  Spec.sum_over (Spec.total T A) (seq 0 (length T)) == np_sum T + np_sum A.
Proof.
  intros Hlen. unfold Spec.total. rewrite sum_over_plus.
  rewrite (np_sum_entries T), (np_sum_entries A), <- Hlen. reflexivity.
Qed.

Lemma payout_is_share_of_pool (T A : array) (i : nat) :
  Spec.payout T A i
  == Spec.share T A i * Spec.sum_over (Spec.total T A) (seq 0 (length T)).
Proof.
  unfold Spec.payout, Spec.share.
  destruct (Qle_bool (Spec.total T A i) 0) eqn:E; [lra|].
  apply Qle_bool_false in E. field. lra.
Qed.

Lemma return_is_share_of_pool (T A : array) :
  Spec.expectedReturn T A
  == Spec.rawOreShare T A * Spec.sum_over (Spec.total T A) (seq 0 (length T)).
Proof.
  unfold Spec.expectedReturn, Spec.rawOreShare.
  rewrite (sum_over_ext (Spec.payout T A)
             (fun i => Spec.share T A i
                       * Spec.sum_over (Spec.total T A) (seq 0 (length T))))
    by (intros; apply payout_is_share_of_pool).
  rewrite sum_over_scale. unfold Qdiv. lra.
Qed.

(** X3.  The expected return that [evaluate] reports is its raw share
    diagnostic times the whole pool, [sum(T) + sum(A)]: whichever block
    wins, the payout is the staker's fraction of that block applied to
    everything staked. *)
Theorem expected_return_is_share_of_pool (T A : array) (feeRate : Q) :
  length T = length A -> length T <> 0%nat ->
  exists r,
    compute_ev T A feeRate = Ok r
    /\ expected_return (comps r)
       == ore_expected_raw (comps r) * (np_sum T + np_sum A).
Proof.
  intros Hlen Hn.
  destruct (compute_ev_ok T A Hlen Hn feeRate) as (r & E & _ & _ & _ & Hore & Hret & _).
  exists r. split; [exact E|].
  rewrite Hret, Hore, return_is_share_of_pool, pool_sum by assumption. reflexivity.
Qed.

Lemma expected_return_is_share_of_pool_witness :
  exists r,
    compute_ev [3; 100] [1; 4] (1 # 10) = Ok r
    /\ expected_return (comps r) == ore_expected_raw (comps r) * (103 + 5).
Proof.
  apply (expected_return_is_share_of_pool [3; 100] [1; 4] (1 # 10));
    [reflexivity|discriminate].
Defined.

Section Bounds.

Variables T A : array.
Hypothesis same_length : length T = length A.
Hypothesis nonempty : length T <> 0%nat.
Hypothesis T_nonneg : nonneg T.
Hypothesis A_nonneg : nonneg A.

Lemma return_at_most_pool : Spec.expectedReturn T A <= np_sum T + np_sum A.
Proof.
  rewrite return_is_share_of_pool, pool_sum by assumption.
  pose proof (raw_share_bounds T A T_nonneg A_nonneg nonempty) as [_ H1].
  pose proof (np_sum_nonneg T T_nonneg). pose proof (np_sum_nonneg A A_nonneg).
  set (q := Spec.rawOreShare T A) in *. nra.
Qed.

Lemma kept_stake_value : Spec.expectedKeptStake T A == np_sum A / inject_Z (Z.of_nat (length T)).
Proof.
  unfold Spec.expectedKeptStake. rewrite (np_sum_entries A), <- same_length. reflexivity.
Qed.

Lemma cost_value : Spec.cost T A == np_sum A.
Proof.
  unfold Spec.cost. rewrite (np_sum_entries A), <- same_length. reflexivity.
Qed.

Lemma ev_upper_bound (fee : Q) : 0 <= fee -> Spec.ev T A fee <= np_sum T.
Proof.
  intros Hf. pose proof return_at_most_pool as Hret.
  pose proof (reward_nonneg T A T_nonneg A_nonneg nonempty) as Hrew.
  pose proof cost_value as Hcost.
  unfold Spec.ev, Spec.expectedReturnAfterFee, Spec.expectedRewardAfterFee.
  unfold Spec.expectedRewardBeforeFee in *.
  set (ret := Spec.expectedReturn T A) in *.
  set (kept := Spec.expectedKeptStake T A) in *.
  rewrite Hcost. nra.
Qed.

Lemma ev_lower_bound (fee : Q) :
  fee <= 1 ->
  np_sum A / inject_Z (Z.of_nat (length T)) - np_sum A <= Spec.ev T A fee.
Proof.
  intros Hf.
  pose proof (reward_nonneg T A T_nonneg A_nonneg nonempty) as Hrew.
  unfold Spec.ev, Spec.expectedReturnAfterFee, Spec.expectedRewardAfterFee.
  rewrite cost_value, kept_stake_value.
  set (rew := Spec.expectedRewardBeforeFee T A) in *. nra.
Qed.

End Bounds.

(** X4.  For non-negative stakes and a fee rate in [[0, 1]], the [ev] of
    [evaluate] lies between [sum(A) / n - sum(A)] and [sum(T)]: no
    allocation is expected to win more than the opponents have staked,
    nor to lose more than the stake that is not returned on average. *)
Theorem ev_between_loss_and_opponents (T A : array) (feeRate : Q) :
  length T = length A -> length T <> 0%nat -> nonneg T -> nonneg A ->
  0 <= feeRate <= 1 ->
  exists r,
    compute_ev T A feeRate = Ok r
    /\ np_sum A / inject_Z (Z.of_nat (length T)) - np_sum A <= ev_sol_after_fees r
    /\ ev_sol_after_fees r <= np_sum T.
Proof.
  intros Hlen Hn HT HA [Hf0 Hf1].
  destruct (compute_ev_ok T A Hlen Hn feeRate) as (r & E & Hev & _).
  exists r. split; [exact E|]. rewrite Hev. split.
  - now apply ev_lower_bound.
  - now apply ev_upper_bound.
Qed.

Lemma ev_between_loss_and_opponents_witness :
  exists r,
    compute_ev [3; 100] [1; 4] (1 # 10) = Ok r
    /\ 5 / inject_Z (Z.of_nat 2) - 5 <= ev_sol_after_fees r
    /\ ev_sol_after_fees r <= 103.
Proof.
  apply (ev_between_loss_and_opponents [3; 100] [1; 4] (1 # 10));
    [reflexivity|discriminate|closed_nonneg|closed_nonneg|split; discriminate].
Defined.

(** ** The valuation model: change of unit of account *)

Section Scaling.

Variable c : Q.
Hypothesis c_pos : 0 < c.
Variables T A : array.

Lemma scaled_entry (a : array) (i : nat) : Spec.entry (scaled c a) i == c * Spec.entry a i.
Proof.
  unfold Spec.entry, scaled. revert i; induction a as [|x a IH]; intros [|i]; simpl;
    try lra; auto.
Qed.

Lemma scaled_length (a : array) : length (scaled c a) = length a.
Proof. apply length_map. Qed.

Lemma scaled_total (i : nat) :
  Spec.total (scaled c T) (scaled c A) i == c * Spec.total T A i.
Proof.
  unfold Spec.total. rewrite !scaled_entry. lra.
Qed.

Lemma scaled_guard (i : nat) :
  Qle_bool (Spec.total (scaled c T) (scaled c A) i) 0 = Qle_bool (Spec.total T A i) 0.
Proof.
  pose proof (scaled_total i) as H.
  destruct (Qle_bool (Spec.total T A i) 0) eqn:E.
  - apply Qle_bool_iff in E. apply Qle_bool_iff. rewrite H. nra.
  - apply Qle_bool_false in E. apply Qle_bool_false. rewrite H. nra.
Qed.

Lemma scaled_pool :
  Spec.sum_over (Spec.total (scaled c T) (scaled c A)) (seq 0 (length (scaled c T)))
  == c * Spec.sum_over (Spec.total T A) (seq 0 (length T)).
Proof.
  rewrite scaled_length.
  rewrite (sum_over_ext _ (fun i => Spec.total T A i * c))
    by (intros; rewrite scaled_total; lra).
  rewrite sum_over_scale. lra.
Qed.

Lemma scaled_payout (i : nat) :
  Spec.payout (scaled c T) (scaled c A) i == c * Spec.payout T A i.
Proof.
  unfold Spec.payout. rewrite scaled_guard.
  destruct (Qle_bool (Spec.total T A i) 0) eqn:E; [lra|].
  apply Qle_bool_false in E.
  rewrite scaled_pool, scaled_total, scaled_entry. field. lra.
Qed.

Lemma scaled_ev (fee : Q) :
  Spec.ev (scaled c T) (scaled c A) fee == c * Spec.ev T A fee.
Proof.
  unfold Spec.ev, Spec.expectedReturnAfterFee, Spec.expectedRewardAfterFee,
    Spec.expectedRewardBeforeFee, Spec.expectedReturn, Spec.expectedKeptStake,
    Spec.cost.
  rewrite scaled_length.
  rewrite (sum_over_ext (Spec.payout (scaled c T) (scaled c A))
             (fun i => Spec.payout T A i * c))
    by (intros; rewrite scaled_payout; lra).
  rewrite (sum_over_ext (Spec.entry (scaled c A)) (fun i => Spec.entry A i * c))
    by (intros; rewrite scaled_entry; lra).
  rewrite !sum_over_scale. unfold Qdiv. lra.
Qed.

End Scaling.

(** X5.  [evaluate] does not depend on the unit of account: multiplying
    every stake of both vectors by one positive factor [c] multiplies the
    [ev] by [c]. *)
Theorem ev_scales_with_stakes (c : Q) (T A : array) (feeRate : Q) :
  0 < c -> length T = length A -> length T <> 0%nat ->
  exists r r',
    compute_ev T A feeRate = Ok r
    /\ compute_ev (scaled c T) (scaled c A) feeRate = Ok r'
    /\ ev_sol_after_fees r' == c * ev_sol_after_fees r.
Proof.
  intros Hc Hlen Hn.
  destruct (compute_ev_ok T A Hlen Hn feeRate) as (r & E & Hev & _).
  destruct (compute_ev_ok (scaled c T) (scaled c A)) with (fee := feeRate)
    as (r' & E' & Hev' & _).
  - now rewrite !scaled_length.
  - now rewrite scaled_length.
  - exists r, r'. split; [exact E|]. split; [exact E'|].
    rewrite Hev, Hev'. now apply scaled_ev.
Qed.

Lemma ev_scales_with_stakes_witness :
  exists r r',
    compute_ev [3; 100] [1; 4] (1 # 10) = Ok r
    /\ compute_ev (scaled 1000 [3; 100]) (scaled 1000 [1; 4]) (1 # 10) = Ok r'
    /\ ev_sol_after_fees r' == 1000 * ev_sol_after_fees r.
Proof.
  apply (ev_scales_with_stakes 1000 [3; 100] [1; 4] (1 # 10));
    [reflexivity|reflexivity|discriminate].
Defined.

(** ** The greedy loop: induction over its runs *)

Lemma compute_ev_value (T A : array) (fee : Q) (r : ev_result) :
  length T = length A -> length T <> 0%nat ->
  compute_ev T A fee = Ok r -> ev_sol_after_fees r == Spec.ev T A fee.
Proof.
  intros Hlen Hn E.
  destruct (compute_ev_ok T A Hlen Hn fee) as (r' & E' & Hev & _).
  rewrite E in E'. injection E' as <-. exact Hev.
Qed.

Section LoopInduction.

Variable T : array.
Variables unit fee : Q.
Variable n : nat.
Hypothesis T_length : length T = n.
Hypothesis nonempty : n <> 0%nat.

Variable P : nat -> loop_state -> array -> Prop.

Hypothesis P_cap : forall st, length (s st) = n -> P 0 st (s st).

Hypothesis P_spent : forall iters st,
  length (s st) = n -> (remaining_units st <= 0)%Z ->
  loop_body T unit fee n st = Ok (Break st) ->
  P (S iters) st (s st).

Hypothesis P_tolerance : forall iters st base,
  length (s st) = n -> (0 < remaining_units st)%Z ->
  compute_ev T (s st) fee = Ok base ->
  (forall j, (j < n)%nat ->
     delta_of T unit fee (s st) (ev_sol_after_fees base) j <= tolerance) ->
  loop_body T unit fee n st = Ok (Break st) ->
  P (S iters) st (s st).

Hypothesis P_commit : forall iters st base i out,
  length (s st) = n -> (0 < remaining_units st)%Z ->
  compute_ev T (s st) fee = Ok base -> (i < n)%nat ->
  tolerance < delta_of T unit fee (s st) (ev_sol_after_fees base) i ->
  let st' := {| s := bump (s st) i unit;
                remaining_units := remaining_units st - 1 |} in
  loop_body T unit fee n st = Ok (Next st') ->
  run_loop T unit fee n iters st' = Ok out ->
  P iters st' out -> P (S iters) st out.

(** Every run of the loop returns, and a property that holds where the
    loop can stop and is carried back over a committed unit holds of the
    run. *)
Lemma run_loop_induction (iters : nat) (st : loop_state) :
  length (s st) = n ->
  exists out, run_loop T unit fee n iters st = Ok out /\ P iters st out.
Proof.
  revert st; induction iters as [|iters IH]; intros st Hs.
  - exists (s st). split; [reflexivity|now apply P_cap].
  - cbn [run_loop].
    destruct (Z.leb_spec (remaining_units st) 0) as [Hle|Hgt].
    + assert (E : loop_body T unit fee n st = Ok (Break st)).
      { unfold loop_body.
        destruct (Z.leb_spec (remaining_units st) 0); [reflexivity|lia]. }
      rewrite E. cbn [bind]. exists (s st). split; [reflexivity|now apply P_spent].
    + destruct (loop_body_spec T unit fee n T_length nonempty st Hs Hgt)
        as (base & bi & bd & Eb & _ & Hcase).
      cbv zeta in Hcase.
      destruct Hcase as [(Htol & Hall & E)|(Htol & i & _ & Hi & -> & _ & _ & E)].
      * rewrite E. cbn [bind]. exists (s st). split; [reflexivity|].
        apply P_tolerance with (base := base); try assumption.
        intros j Hj. pose proof (Hall j Hj). lra.
      * rewrite E. cbn [bind].
        destruct (IH {| s := bump (s st) i unit;
                        remaining_units := remaining_units st - 1 |})
          as (out & Er & HP); [cbn; now rewrite bump_length|].
        exists out. split; [exact Er|].
        now apply P_commit with (base := base) (i := i).
Qed.

End LoopInduction.

(** ** The allocator: what the returned allocation is worth *)

Lemma tolerance_pos : 0 < tolerance.
Proof. reflexivity. Qed.

Lemma run_loop_value (T : array) (unit fee : Q) (n : nat) :
  length T = n -> n <> 0%nat ->
  forall iters st,
    length (s st) = n ->
    exists out k,
      run_loop T unit fee n iters st = Ok out
      /\ length out = n
      /\ (0 <= k)%Z
      /\ np_sum out == np_sum (s st) + inject_Z k * unit
      /\ Spec.ev T (s st) fee + inject_Z k * tolerance <= Spec.ev T out fee.
Proof.
  intros HT Hn iters st Hs.
  destruct (run_loop_induction T unit fee n HT Hn
    (fun _ st out =>
       length out = n
       /\ exists k, (0 <= k)%Z
            /\ np_sum out == np_sum (s st) + inject_Z k * unit
            /\ Spec.ev T (s st) fee + inject_Z k * tolerance <= Spec.ev T out fee))
    with (iters := iters) (st := st) as (out & E & Hlen & k & Hk & Hsum & Hev);
    try assumption.
  - intros st0 Hs0. split; [assumption|]. exists 0%Z.
    change (inject_Z 0) with 0. repeat split; try lia; lra.
  - intros _ st0 Hs0 _ _. split; [assumption|]. exists 0%Z.
    change (inject_Z 0) with 0. repeat split; try lia; lra.
  - intros _ st0 base Hs0 _ _ _ _. split; [assumption|]. exists 0%Z.
    change (inject_Z 0) with 0. repeat split; try lia; lra.
  - intros _ st0 base i out0 Hs0 _ Eb Hi Hgt st' _ _ (Hlen & k & Hk & Hsum & Hev).
    split; [assumption|]. exists (k + 1)%Z.
    subst st'. cbn [s remaining_units] in Hsum, Hev.
    pose proof (delta_of_value T unit fee n HT Hn (s st0)
                  (ev_sol_after_fees base) i Hs0 Hi) as Hd.
    pose proof (compute_ev_value T (s st0) fee base ltac:(congruence)
                  ltac:(congruence) Eb) as Hb.
    rewrite bump_sum in Hsum by lia.
    rewrite inject_Z_plus. change (inject_Z 1) with 1.
    split; [lia|]. split; [rewrite Hsum; lra|].
    pose proof tolerance_pos. rewrite Hd, Hb in Hgt. lra.
  - exists out, k. repeat split; assumption.
Qed.

(** X6.  On a grid of 25 blocks and with [unit] not zero, the allocation
    that [optimize] returns is one [evaluate] accepts, and its [ev] is at
    least [k * 1e-12], where [k >= 0] is the number of units placed
    ([sum = k * unit]): the allocator never returns an allocation worth
    less than staking nothing, and every unit it placed added more than
    the tolerance. *)
Theorem optimize_never_loses (T : array) (budget unit feeRate : Q)
    (max_iters : option Z) :
  length T = 25%nat -> ~ unit == 0 ->
  exists out r k,
    greedy_optimize T budget unit feeRate max_iters = Ok out
    /\ compute_ev T out feeRate = Ok r
    /\ (0 <= k)%Z
    /\ np_sum out == inject_Z k * unit
    /\ inject_Z k * tolerance <= ev_sol_after_fees r.
Proof.
  intros HT Hu. rewrite greedy_optimize_unfold by assumption.
  assert (Hn : length T <> 0%nat) by (rewrite HT; discriminate).
  assert (H0 : Spec.ev T (np_zeros 25) feeRate == 0)
    by (rewrite <- HT; now apply zero_allocation_ev).
  assert (Hout : exists out k,
            (if (py_round (budget / unit) <=? 0)%Z then Ok (np_zeros 25)
             else run_loop T unit feeRate 25
                    (iterations max_iters (py_round (budget / unit)))
                    {| s := np_zeros 25;
                       remaining_units := py_round (budget / unit) |}) = Ok out
            /\ length out = 25%nat /\ (0 <= k)%Z
            /\ np_sum out == inject_Z k * unit
            /\ inject_Z k * tolerance <= Spec.ev T out feeRate).
  { destruct (py_round (budget / unit) <=? 0)%Z.
    - exists (np_zeros 25), 0%Z. change (inject_Z 0) with 0.
      rewrite np_sum_zeros, H0.
      split; [reflexivity|]. split; [reflexivity|]. split; [lia|]. split; lra.
    - destruct (run_loop_value T unit feeRate 25 HT ltac:(discriminate)
                  (iterations max_iters (py_round (budget / unit)))
                  {| s := np_zeros 25;
                     remaining_units := py_round (budget / unit) |} eq_refl)
        as (out & k & E & Hlen & Hk & Hsum & Hev).
      cbn [s] in Hsum, Hev. rewrite np_sum_zeros in Hsum. rewrite H0 in Hev.
      exists out, k. repeat split; try assumption; lra. }
  destruct Hout as (out & k & E & Hlen & Hk & Hsum & Hev).
  destruct (compute_ev_ok T out) with (fee := feeRate) as (r & Er & Hr & _);
    [congruence|exact Hn|].
  exists out, r, k. rewrite Hr. repeat split; assumption.
Qed.

Lemma optimize_never_loses_witness :
  exists out r k,
    greedy_optimize sample_grid 2 1 (1 # 10) None = Ok out
    /\ compute_ev sample_grid out (1 # 10) = Ok r
    /\ (0 <= k)%Z
    /\ np_sum out == inject_Z k * 1
    /\ inject_Z k * tolerance <= ev_sol_after_fees r.
Proof.
  apply (optimize_never_loses sample_grid 2 1 (1 # 10) None);
    [reflexivity|discriminate].
Defined.

(** ** The allocator: whole units *)











(** ** The allocator: the iteration cap *)

Lemma loop_body_spent (T : array) (unit fee : Q) (n : nat) (st : loop_state) :
  (remaining_units st <= 0)%Z -> loop_body T unit fee n st = Ok (Break st).
Proof.
  intros H. unfold loop_body.
  destruct (Z.leb_spec (remaining_units st) 0); [reflexivity|lia].
Qed.

Lemma loop_body_next_remaining (T : array) (unit fee : Q) (n : nat)
    (st st' : loop_state) :
  loop_body T unit fee n st = Ok (Next st') ->
  (0 < remaining_units st)%Z /\ remaining_units st' = (remaining_units st - 1)%Z.
Proof.
  unfold loop_body.
  destruct (Z.leb_spec (remaining_units st) 0); [discriminate|].
  destruct (best_block T unit fee n (s st)) as [[bi bd]|]; [|discriminate].
  cbn [bind]. destruct (Qle_bool bd tolerance); [discriminate|].
  destruct (iadd (s st) bi unit); [|discriminate].
  cbn [bind]. intros [= <-]. cbn. split; [assumption|reflexivity].
Qed.

(** Iterations beyond the remaining units never run their scan. *)
Lemma run_loop_saturates (T : array) (unit fee : Q) (n : nat) :
  forall iters st,
    (remaining_units st <= Z.of_nat iters)%Z ->
    run_loop T unit fee n iters st
    = run_loop T unit fee n (Z.to_nat (remaining_units st)) st.
Proof.
  induction iters as [|iters IH]; intros st Hrem.
  - replace (Z.to_nat (remaining_units st)) with 0%nat by lia. reflexivity.
  - destruct (Z.leb_spec (remaining_units st) 0) as [Hle|Hgt].
    + replace (Z.to_nat (remaining_units st)) with 0%nat by lia.
      cbn [run_loop]. now rewrite loop_body_spent.
    + replace (Z.to_nat (remaining_units st))
        with (S (Z.to_nat (remaining_units st - 1))) by lia.
      cbn [run_loop].
      destruct (loop_body T unit fee n st) as [[st'|st']|e] eqn:E; cbn [bind];
        try reflexivity.
      apply loop_body_next_remaining in E. destruct E as [_ E].
      rewrite IH by lia. now rewrite E.
Qed.

(** X8.  A [max_iters] of at least [round(budget / unit)] changes nothing:
    [optimize] ends exactly as it does with [max_iters] left out, on every
    input, exceptions included. *)
Theorem large_max_iters_is_default (T : array) (budget unit feeRate : Q) (m : Z) :
  (py_round (budget / unit) <= m)%Z ->
  greedy_optimize T budget unit feeRate (Some m)
  = greedy_optimize T budget unit feeRate None.
Proof.
  intros Hm. unfold greedy_optimize.
  destruct (negb (length T =? 25)%nat); [reflexivity|].
  unfold py_div. destruct (Qeq_bool unit 0); [reflexivity|]. cbn [bind].
  destruct (Z.leb_spec (py_round (budget / unit)) 0) as [_|Hpos]; [reflexivity|].
  rewrite run_loop_saturates by (cbn [remaining_units]; lia).
  reflexivity.
Qed.

Lemma large_max_iters_is_default_witness :
  greedy_optimize sample_grid 2 1 (1 # 10) (Some 7%Z)
  = greedy_optimize sample_grid 2 1 (1 # 10) None.
Proof.
  apply (large_max_iters_is_default sample_grid 2 1 (1 # 10) 7).
  vm_compute. discriminate.
Defined.

(** ** The allocator: why it stopped *)




(** ** The allocator: an empty game *)

Lemma first_iteration_stops (T : array) (unit fee : Q) (iters : nat) (rem : Z) :
  length T = 25%nat -> nonneg T -> np_sum T <= tolerance ->
  0 <= unit -> 0 <= fee ->
  run_loop T unit fee 25 iters {| s := np_zeros 25; remaining_units := rem |}
  = Ok (np_zeros 25).
Proof.
  intros HT Hnn Hsum Hu Hf.
  destruct iters as [|iters]; [reflexivity|]. cbn [run_loop].
  destruct (Z.leb_spec rem 0) as [Hle|Hgt].
  - now rewrite loop_body_spent.
  - set (st := {| s := np_zeros 25; remaining_units := rem |}).
    assert (Hn : 25%nat <> 0%nat) by discriminate.
    destruct (loop_body_spec T unit fee 25 HT Hn st eq_refl Hgt)
      as (base & bi & bd & Eb & _ & Hcase).
    cbv zeta in Hcase.
    destruct Hcase as [(_ & _ & E)|(Htol & i & _ & Hi & -> & _ & _ & _)].
    + now rewrite E.
    + exfalso. cbn [s st] in Htol, Eb.
      rewrite (delta_of_value T unit fee 25 HT Hn (np_zeros 25) _ i eq_refl Hi) in Htol.
      rewrite (compute_ev_value T (np_zeros 25) fee base) in Htol;
        [|now rewrite HT|now rewrite HT|exact Eb].
      assert (H0 : Spec.ev T (np_zeros 25) fee == 0)
        by (rewrite <- HT; apply zero_allocation_ev; now rewrite HT).
      assert (Hup : Spec.ev T (bump (np_zeros 25) i unit) fee <= np_sum T).
      { apply ev_upper_bound; try assumption.
        - now rewrite bump_length, HT.
        - now rewrite HT.
        - apply bump_nonneg; [assumption|apply zeros_nonneg]. }
      rewrite H0 in Htol. lra.
Qed.

(** X10.  When the opponents have staked nothing, or no more than
    [1e-12] in all, [optimize] allocates nothing: for a non-negative
    grid of 25 blocks with [sum(T) <= 1e-12], [unit > 0] and a
    non-negative fee rate it returns the all-zero allocation, whatever
    the budget. *)
Theorem empty_game_gets_no_stake (T : array) (budget unit feeRate : Q)
    (max_iters : option Z) :
  length T = 25%nat -> nonneg T -> np_sum T <= tolerance ->
  0 < unit -> 0 <= feeRate ->
  greedy_optimize T budget unit feeRate max_iters = Ok (np_zeros 25).
Proof.
  intros HT Hnn Hsum Hu Hf.
  rewrite greedy_optimize_unfold;
    [|assumption|intros H; rewrite H in Hu; discriminate].
  destruct (py_round (budget / unit) <=? 0)%Z; [reflexivity|].
  apply first_iteration_stops; try assumption. lra.
Qed.

Lemma empty_game_gets_no_stake_witness :
  greedy_optimize (np_zeros 25) 3 1 (1 # 10) None = Ok (np_zeros 25).
Proof.
  apply (empty_game_gets_no_stake (np_zeros 25) 3 1 (1 # 10) None);
    [reflexivity|apply zeros_nonneg|discriminate|reflexivity|discriminate].
Defined.

(** ** The allocator: more iterations *)

Lemma Qle_entries_refl (a : array) : Forall2 Qle a a.
Proof. induction a; constructor; [apply Qle_refl|assumption]. Qed.

Lemma Qle_entries_trans (a b c : array) :
  Forall2 Qle a b -> Forall2 Qle b c -> Forall2 Qle a c.
Proof.
  intros Hab; revert c; induction Hab as [|x y a b Hxy _ IH]; intros c Hbc;
    inversion Hbc; subst; constructor; [lra|auto].
Qed.

Lemma bump_raises (a : array) (i : nat) (v : Q) : 0 <= v -> Forall2 Qle a (bump a i v).
Proof.
  intros Hv; revert i; induction a as [|x a IH]; intros [|i]; simpl;
    constructor; try lra; auto using Qle_entries_refl.
Qed.

Lemma run_loop_one_more (T : array) (unit fee : Q) (n : nat) :
  length T = n -> n <> 0%nat -> 0 <= unit ->
  forall iters st,
    length (s st) = n ->
    exists out out',
      run_loop T unit fee n iters st = Ok out
      /\ run_loop T unit fee n (S iters) st = Ok out'
      /\ Forall2 Qle out out'.
Proof.
  intros HT Hn Hu iters st Hs.
  destruct (run_loop_induction T unit fee n HT Hn
    (fun iters st out =>
       exists out', run_loop T unit fee n (S iters) st = Ok out'
                    /\ Forall2 Qle out out'))
    with (iters := iters) (st := st) as (out & E & out' & E' & Hle);
    try assumption.
  - intros st0 Hs0. cbn [run_loop].
    destruct (Z.leb_spec (remaining_units st0) 0) as [Hle|Hgt].
    + rewrite loop_body_spent by assumption. cbn [bind].
      exists (s st0). split; [reflexivity|apply Qle_entries_refl].
    + destruct (loop_body_spec T unit fee n HT Hn st0 Hs0 Hgt)
        as (base & bi & bd & _ & _ & Hcase).
      cbv zeta in Hcase.
      destruct Hcase as [(_ & _ & E)|(_ & i & _ & _ & _ & _ & _ & E)];
        rewrite E; cbn [bind].
      * exists (s st0). split; [reflexivity|apply Qle_entries_refl].
      * exists (bump (s st0) i unit). split; [reflexivity|now apply bump_raises].
  - intros k st0 _ _ E. exists (s st0). cbn [run_loop]. rewrite E. cbn [bind].
    split; [reflexivity|apply Qle_entries_refl].
  - intros k st0 base _ _ _ _ E. exists (s st0). cbn [run_loop]. rewrite E.
    cbn [bind]. split; [reflexivity|apply Qle_entries_refl].
  - intros k st0 base i out0 _ _ _ _ _ st' E _ (out' & E' & Hle).
    exists out'. split; [|exact Hle].
    change (run_loop T unit fee n (S (S k)) st0)
      with (it <- loop_body T unit fee n st0 ;;
            match it with
            | Break st1 => Ok (s st1)
            | Next st1 => run_loop T unit fee n (S k) st1
            end).
    rewrite E. exact E'.
  - exists out, out'. repeat split; assumption.
Qed.

Lemma run_loop_more (T : array) (unit fee : Q) (n : nat) :
  length T = n -> n <> 0%nat -> 0 <= unit ->
  forall extra iters st,
    length (s st) = n ->
    exists out out',
      run_loop T unit fee n iters st = Ok out
      /\ run_loop T unit fee n (iters + extra) st = Ok out'
      /\ Forall2 Qle out out'.
Proof.
  intros HT Hn Hu extra; induction extra as [|extra IH]; intros iters st Hs.
  - destruct (run_loop_spec T unit fee n HT Hn iters st Hs) as (out & _ & E & _).
    exists out, out. rewrite Nat.add_0_r.
    repeat split; try assumption. apply Qle_entries_refl.
  - destruct (IH iters st Hs) as (out & mid & E & Emid & Hle).
    destruct (run_loop_one_more T unit fee n HT Hn Hu (iters + extra) st Hs)
      as (mid' & out' & Emid' & E' & Hle').
    rewrite Emid in Emid'. injection Emid' as <-.
    exists out, out'. rewrite Nat.add_succ_r.
    repeat split; try assumption. now apply Qle_entries_trans with (b := mid).
Qed.

(** X11.  Raising [max_iters] never takes stake away from a block: on a
    grid of 25 blocks with [unit > 0], for [m1 <= m2] both calls return
    and every entry of the allocation under [m2] is at least the entry
    under [m1]. *)
Theorem more_iterations_never_remove_stake (T : array) (budget unit feeRate : Q)
    (m1 m2 : Z) :
  length T = 25%nat -> 0 < unit -> (m1 <= m2)%Z ->
  exists out1 out2,
    greedy_optimize T budget unit feeRate (Some m1) = Ok out1
    /\ greedy_optimize T budget unit feeRate (Some m2) = Ok out2
    /\ Forall2 Qle out1 out2.
Proof.
  intros HT Hu Hm.
  assert (Hu' : ~ unit == 0) by (intros H; rewrite H in Hu; discriminate).
  rewrite !greedy_optimize_unfold by assumption.
  destruct (py_round (budget / unit) <=? 0)%Z.
  - exists (np_zeros 25), (np_zeros 25).
    repeat split. apply Qle_entries_refl.
  - unfold iterations.
    replace (Z.to_nat m2) with (Z.to_nat m1 + (Z.to_nat m2 - Z.to_nat m1))%nat by lia.
    apply run_loop_more; try assumption; try reflexivity; try discriminate. lra.
Qed.

Lemma more_iterations_never_remove_stake_witness :
  exists out1 out2,
    greedy_optimize sample_grid 3 1 (1 # 10) (Some 1%Z) = Ok out1
    /\ greedy_optimize sample_grid 3 1 (1 # 10) (Some 2%Z) = Ok out2
    /\ Forall2 Qle out1 out2.
Proof.
  apply (more_iterations_never_remove_stake sample_grid 3 1 (1 # 10) 1 2);
    [reflexivity|reflexivity|lia].
Defined.

(** ** The allocator: how far rounding can overspend *)

Lemma py_round_at_most_half_above (x : Q) : inject_Z (py_round x) <= x + (1 # 2).
Proof.
  pose proof (Qfloor_le x) as Hf.
  destruct (py_round_cases x) as [->|[-> Hhalf]].
  - lra.
  - rewrite inject_Z_plus. change (inject_Z 1) with 1. lra.
Qed.

Lemma py_round_integer (m : Z) : py_round (inject_Z m) = m.
Proof.
  destruct (py_round_cases (inject_Z m)) as [->|[_ Hhalf]].
  - apply Qfloor_Z.
  - rewrite Qfloor_Z in Hhalf. exfalso. lra.
Qed.

(** X12.  For [budget >= 0] and [unit > 0] the allocation that [optimize]
    returns sums to at most [budget + unit / 2]; and when the budget is a
    whole number of units, [budget = m * unit], it sums to at most the
    budget. *)
Theorem overspend_at_most_half_a_unit (T : array) (budget unit feeRate : Q)
    (max_iters : option Z) (out : array) :
  0 <= budget -> 0 < unit ->
  greedy_optimize T budget unit feeRate max_iters = Ok out ->
  np_sum out <= budget + unit / 2
  /\ forall m, budget == inject_Z m * unit -> np_sum out <= budget.
Proof.
  intros Hb Hu E.
  assert (Hu' : ~ unit == 0) by (intros H; rewrite H in Hu; discriminate).
  destruct (Nat.eq_dec (length T) 25) as [HT|HT];
    [|rewrite greedy_optimize_wrong_length in E by assumption; discriminate].
  destruct (greedy_optimize_spec T budget unit feeRate max_iters HT Hu')
    as (out' & k & E' & _ & Hk & Hsum & _).
  rewrite E in E'. injection E' as <-.
  pose proof (py_round_nonneg _ (quotient_nonneg budget unit Hb Hu)) as Hr.
  assert (Hle : inject_Z k <= inject_Z (py_round (budget / unit)))
    by (rewrite <- Zle_Qle; lia).
  assert (Hq : budget / unit * unit == budget) by (field; exact Hu').
  split.
  - pose proof (py_round_at_most_half_above (budget / unit)) as Hh.
    rewrite Hsum.
    assert (inject_Z k * unit <= (budget / unit + (1 # 2)) * unit)
      by (apply Qmult_le_compat_r; lra).
    assert ((budget / unit + (1 # 2)) * unit == budget + unit / 2)
      by (field; exact Hu').
    lra.
  - intros m Hm.
    assert (Hx : budget / unit == inject_Z m) by (rewrite Hm; field; exact Hu').
    rewrite (py_round_same _ _ Hx), py_round_integer in Hle.
    rewrite Hsum, Hm. apply Qmult_le_compat_r; lra.
Qed.

Lemma overspend_at_most_half_a_unit_witness :
  exists out,
    greedy_optimize sample_grid (3 # 2) 1 0 None = Ok out
    /\ np_sum out <= (3 # 2) + 1 / 2.
Proof.
  destruct (greedy_optimize_spec sample_grid (3 # 2) 1 0 None eq_refl)
    as (out & _ & E & _); [discriminate|].
  exists out. split; [exact E|].
  apply (overspend_at_most_half_a_unit sample_grid (3 # 2) 1 0 None out);
    [discriminate|reflexivity|exact E].
Defined.

(** ** Reading the grid: the comma list *)

Lemma floats_length (py_float : string -> result Q) (parts : list string) (g : array) :
  floats py_float parts = Ok g -> length g = length parts.
Proof.
  revert g; induction parts as [|x parts IH]; intros g; cbn [floats].
  - intros [= <-]. reflexivity.
  - destruct (py_float x) as [v|]; [|discriminate]. cbn [bind].
    destruct (floats py_float parts) as [vs|]; [|discriminate]. cbn [bind].
    intros [= <-]. simpl. now rewrite (IH vs).
Qed.

(** X13.  Whatever numerals [float] reads, [parse_grid_string] returns
    only grids of exactly 25 entries, one for each comma-separated field
    that is not blank; with any other number of such fields it raises
    [ValueError] before [float] is asked anything. *)
Theorem parse_grid_string_wants_25_fields (py_float : string -> result Q)
    (x : string) :
  let fields := filter not_blank (split "," x) in
  (length fields <> 25%nat -> parse_grid_string py_float x = Raise ValueError)
  /\ (forall g, parse_grid_string py_float x = Ok g ->
        length g = 25%nat /\ length fields = 25%nat).
Proof.
  intros fields. unfold parse_grid_string. fold fields. rewrite length_map.
  split.
  - intros H. destruct (Nat.eqb_spec (length fields) 25); [contradiction|reflexivity].
  - intros g. destruct (Nat.eqb_spec (length fields) 25) as [E|_]; [|discriminate].
    cbn [negb]. intros Hg. apply floats_length in Hg.
    rewrite length_map in Hg. split; congruence.
Qed.

Lemma parse_grid_string_wants_25_fields_witness :
  parse_grid_string example_float "1, 2,,3" = Raise ValueError.
Proof.
  apply (parse_grid_string_wants_25_fields example_float "1, 2,,3").
  vm_compute. discriminate.
Defined.

Lemma split_not_nil (sep : ascii) (x : string) : split sep x <> [].
Proof.
  destruct x as [|c x]; simpl; [discriminate|].
  destruct (Ascii.eqb c sep); [discriminate|].
  destruct (split sep x); discriminate.
Qed.

Lemma split_append (sep : ascii) (x y : string) :
  split sep (x ++ String sep y) = split sep x ++ split sep y.
Proof.
  induction x as [|c x IH]; simpl.
  - now rewrite Ascii.eqb_refl.
  - destruct (Ascii.eqb c sep); [now rewrite IH|].
    rewrite IH. pose proof (split_not_nil sep x) as Hne.
    destruct (split sep x) as [|field fields]; [contradiction|reflexivity].
Qed.

Lemma space_is_no_comma (c : ascii) : is_space c = true -> Ascii.eqb c "," = false.
Proof.
  intros H. destruct (Ascii.eqb_spec c ",") as [->|_]; [discriminate H|reflexivity].
Qed.

Lemma all_space_split (w : string) : all_space w = true -> split "," w = [w].
Proof.
  induction w as [|c w IH]; simpl; [reflexivity|].
  intros H. apply andb_prop in H. destruct H as [Hc Hw].
  rewrite (space_is_no_comma c Hc), (IH Hw). reflexivity.
Qed.

Lemma all_space_lstrip (w : string) : all_space w = true -> lstrip w = EmptyString.
Proof.
  induction w as [|c w IH]; simpl; [reflexivity|].
  intros H. apply andb_prop in H. destruct H as [-> Hw]. now apply IH.
Qed.

Lemma all_space_blank (w : string) : all_space w = true -> not_blank w = false.
Proof.
  intros H. unfold not_blank, strip. now rewrite all_space_lstrip.
Qed.

Lemma fields_of_append (x y : string) :
  fields_of (x ++ String "," y) = fields_of x ++ fields_of y.
Proof.
  unfold fields_of. now rewrite split_append, filter_app.
Qed.

Lemma fields_of_blank (w : string) : all_space w = true -> fields_of w = [].
Proof.
  intros H. unfold fields_of. rewrite all_space_split by assumption.
  simpl. now rewrite all_space_blank.
Qed.

Lemma parse_grid_string_fields (py_float : string -> result Q) (x y : string) :
  fields_of x = fields_of y ->
  parse_grid_string py_float x = parse_grid_string py_float y.
Proof.
  unfold parse_grid_string, fields_of. now intros ->.
Qed.

(** X14.  [parse_grid_string] ignores blank fields: a field of white
    space only, put between two commas, after a last comma or before a
    first one, changes neither the grid returned nor the exception
    raised. *)
Theorem parse_grid_string_ignores_blank_fields (py_float : string -> result Q)
    (w x y : string) :
  all_space w = true ->
  parse_grid_string py_float (x ++ "," ++ w ++ "," ++ y)
  = parse_grid_string py_float (x ++ "," ++ y)
  /\ parse_grid_string py_float (x ++ "," ++ w) = parse_grid_string py_float x
  /\ parse_grid_string py_float (w ++ "," ++ x) = parse_grid_string py_float x.
Proof.
  intros Hw. cbn [append].
  repeat split; apply parse_grid_string_fields;
    rewrite ?fields_of_append, (fields_of_blank w Hw), ?app_nil_r; reflexivity.
Qed.

Lemma parse_grid_string_ignores_blank_fields_witness :
  parse_grid_string example_float ("1,2" ++ "," ++ "  " ++ "," ++ "3")
  = parse_grid_string example_float ("1,2" ++ "," ++ "3").
Proof.
  apply (parse_grid_string_ignores_blank_fields example_float "  " "1,2" "3").
  reflexivity.
Defined.

(** ** Reading the grid: the CSV file *)

Lemma bind_ok_r {A : Type} (m : result A) : bind m Ok = m.
Proof. destruct m; reflexivity. Qed.

Lemma read_row_append (py_float : string -> result Q) (r1 r2 : list string)
    (vals : list Q) :
  read_row py_float (r1 ++ r2) vals
  = bind (read_row py_float r1 vals) (read_row py_float r2).
Proof.
  revert vals; induction r1 as [|cell r1 IH]; intros vals; simpl; [reflexivity|].
  destruct (not_blank cell); [|apply IH].
  destruct (py_float cell) as [v|e]; cbn [bind]; [apply IH|reflexivity].
Qed.

Lemma read_rows_concat (py_float : string -> result Q) (rows : list (list string))
    (vals : list Q) :
  read_rows py_float rows vals = read_row py_float (concat rows) vals.
Proof.
  revert vals; induction rows as [|row rows IH]; intros vals; simpl; [reflexivity|].
  rewrite read_row_append.
  destruct (read_row py_float row vals) as [vals'|e]; cbn [bind];
    [apply IH|reflexivity].
Qed.

Lemma read_row_length (py_float : string -> result Q) (row : list string)
    (vals g : list Q) :
  read_row py_float row vals = Ok g ->
  length g = (length vals + length (filter not_blank row))%nat.
Proof.
  revert vals; induction row as [|cell row IH]; intros vals; simpl.
  - intros [= <-]. lia.
  - destruct (not_blank cell); [|apply IH].
    destruct (py_float cell) as [v|e]; cbn [bind]; [|discriminate].
    intros H. apply IH in H. rewrite length_app in H. simpl in *. lia.
Qed.

(** X15.  [read_grid_csv] reads the cells in order and pays no attention
    to how they are laid out in rows: the rows of a file and the single
    row of all their cells give the same grid or the same exception.  A
    grid it returns has exactly 25 entries, one for each cell that is not
    blank. *)
Theorem read_grid_csv_ignores_rows (py_float : string -> result Q)
    (rows : list (list string)) :
  read_grid_csv py_float rows = read_grid_csv py_float [concat rows]
  /\ forall g, read_grid_csv py_float rows = Ok g ->
       length g = 25%nat
       /\ length (filter not_blank (concat rows)) = 25%nat.
Proof.
  split.
  - unfold read_grid_csv. rewrite !read_rows_concat.
    simpl concat. now rewrite app_nil_r.
  - intros g. unfold read_grid_csv. rewrite read_rows_concat.
    destruct (read_row py_float (concat rows) []) as [vals|e] eqn:E; [|discriminate].
    cbn [bind]. apply read_row_length in E. simpl in E.
    destruct (Nat.eqb_spec (length vals) 25) as [H|_]; [|discriminate].
    cbn [negb]. intros [= <-]. split; congruence.
Qed.

Lemma read_grid_csv_ignores_rows_witness :
  read_grid_csv example_float (repeat ["1"; " 2"; ""; "3"; "4"; "5"]%string 5)
  = read_grid_csv example_float
      [concat (repeat ["1"; " 2"; ""; "3"; "4"; "5"]%string 5)]
  /\ exists g,
       read_grid_csv example_float (repeat ["1"; " 2"; ""; "3"; "4"; "5"]%string 5)
       = Ok g
       /\ length g = 25%nat.
Proof.
  destruct (read_grid_csv_ignores_rows example_float
              (repeat ["1"; " 2"; ""; "3"; "4"; "5"]%string 5)) as [H1 H2].
  split; [exact H1|].
  eexists. split; [vm_compute; reflexivity|].
  refine (proj1 (H2 _ _)). vm_compute. reflexivity.
Defined.

(** ** Reading the grid: one text, two readers *)

Section OneText.

Variable py_float : string -> result Q.

(** [float] skips white space around a numeral, and a string it cannot
    read is a [ValueError]. *)
Hypothesis float_strips : forall x, py_float (strip x) = py_float x.
Hypothesis float_raises : forall x e, py_float x = Raise e -> e = ValueError.

Lemma floats_raises (parts : list string) (e : exn) :
  floats py_float parts = Raise e -> e = ValueError.
Proof.
  induction parts as [|x parts IH]; cbn [floats]; [discriminate|].
  destruct (py_float x) as [v|e'] eqn:E; cbn [bind].
  - destruct (floats py_float parts) as [vs|e'']; cbn [bind]; [discriminate|].
    intros [= <-]. now apply IH.
  - intros [= <-]. now apply float_raises with (x := x).
Qed.

Lemma read_row_floats (row : list string) (vals : list Q) :
  read_row py_float row vals
  = vs <- floats py_float (map strip (filter not_blank row)) ;; Ok (vals ++ vs).
Proof.
  revert vals; induction row as [|cell row IH]; intros vals; simpl.
  - now rewrite app_nil_r.
  - destruct (not_blank cell); [|apply IH]. simpl. rewrite float_strips.
    destruct (py_float cell) as [v|e]; cbn [bind]; [|reflexivity].
    rewrite IH.
    destruct (floats py_float (map strip (filter not_blank row))) as [vs|e];
      cbn [bind]; [|reflexivity].
    now rewrite <- app_assoc.
Qed.

Lemma one_row_is_the_comma_list (x : string) :
  read_grid_csv py_float [split "," x] = parse_grid_string py_float x.
Proof.
  unfold read_grid_csv, parse_grid_string. cbn [read_rows].
  rewrite read_row_floats.
  set (parts := map strip (filter not_blank (split "," x))).
  destruct (floats py_float parts) as [vs|e] eqn:E; cbn [bind app].
  - rewrite (floats_length _ _ _ E).
    destruct (negb (length parts =? 25)%nat); reflexivity.
  - rewrite (floats_raises _ _ E).
    destruct (negb (length parts =? 25)%nat); reflexivity.
Qed.

End OneText.

(** X16.  The two readers agree on one text.  If [float] skips white
    space around a numeral and raises only [ValueError], then the grid
    [read_grid_csv] makes of a single row whose cells are the pieces of
    [x] between its commas is the grid [parse_grid_string] makes of [x],
    and when one raises so does the other, the same exception. *)
Theorem csv_row_and_comma_list_agree (py_float : string -> result Q) (x : string) :
  (forall c, py_float (strip c) = py_float c) ->
  (forall c e, py_float c = Raise e -> e = ValueError) ->
  read_grid_csv py_float [split "," x] = parse_grid_string py_float x.
Proof.
  intros H1 H2. now apply one_row_is_the_comma_list.
Qed.

Lemma digits_lstrip (x : string) (acc : Z) : digits (lstrip x) acc = digits x acc.
Proof.
  induction x as [|c x IH]; [reflexivity|].
  cbn [lstrip]. destruct (is_space c) eqn:E; [|reflexivity].
  rewrite IH. cbn [digits]. now rewrite E.
Qed.

Lemma digits_rstrip (x : string) (acc : Z) : digits (rstrip x) acc = digits x acc.
Proof.
  revert acc; induction x as [|c x IH]; intros acc; [reflexivity|].
  cbn [rstrip digits].
  destruct (rstrip x) as [|c' kept] eqn:E.
  - destruct (is_space c) eqn:Ec.
    + now rewrite <- IH.
    + cbn [digits]. rewrite Ec.
      destruct ((48 <=? nat_of_ascii c) && (nat_of_ascii c <=? 57))%nat;
        [|reflexivity].
      now rewrite <- IH.
  - cbn [digits]. fold (digits (String c' kept)).
    destruct (is_space c).
    + apply IH.
    + destruct ((48 <=? nat_of_ascii c) && (nat_of_ascii c <=? 57))%nat;
        [apply IH|reflexivity].
Qed.

Lemma example_float_strips (x : string) : example_float (strip x) = example_float x.
Proof.
  unfold example_float, strip. now rewrite digits_rstrip, digits_lstrip.
Qed.

Lemma example_float_raises (x : string) (e : exn) :
  example_float x = Raise e -> e = ValueError.
Proof.
  unfold example_float. destruct (digits x 0); [discriminate|]. now intros [= <-].
Qed.

Lemma csv_row_and_comma_list_agree_witness :
  read_grid_csv example_float [split "," "1, 2,,x"]
  = parse_grid_string example_float "1, 2,,x".
Proof.
  apply (csv_row_and_comma_list_agree example_float "1, 2,,x");
    [exact example_float_strips|exact example_float_raises].
Defined.

(** ** The command line: how [main] ends *)











